(** * LightService: a shallow embedding of the light and group store

    The development follows [lightService.ts]: the class [LightService]
    with its two object maps ([lights], [groups]), its two id counters and
    the methods operating on them, together with the pending [setTimeout]
    callbacks that [scheduleAction] registers. Of [index.ts] it covers the
    rate-limiting middleware and, for some routes, the chain of
    [validateId], the handler and the error middleware, as they answer
    once authentication and the rate limiter have let a request through.

    Modelling conventions.
    - JavaScript numbers used as ids, counters and brightness values are
      integers here ([Z]): fractions and [NaN] arguments are left out, and
      the counters stay below 2^53, where double arithmetic is exact. The
      one [NaN] the code produces itself, the delay of an unparseable time
      string, is kept ([None]).
    - The object maps [{ [id: number]: T }] are finite maps [gmap Z T].
    - A method is a function from the state to a result and a new state.
      A [throw] keeps every mutation made before it, exactly as the
      in-place updates of the class do.
    - The clock and the parsing of time strings by [Date] are inputs.
    - [console.log] output is not part of the state and is left out.
    - The array handed to [createGroup] is held by value: each call is
      taken to pass an array of its own, as the only caller ([index.ts])
      does with the freshly parsed request body, and no method returns a
      group's array. *)

From stdpp Require Import gmap strings list fin_maps sorting pretty.

Open Scope Z_scope.

(** ** Data model *)

(** [type LightColor = 'white' | 'blue' | 'red' | 'green' | 'yellow'] *)
Inductive LightColor := white | blue | red | green | yellow.

(** The literal union ['on' | 'off'], used both for [Light.status] and for
    the [action] argument of [controlGroup] and [scheduleAction]. *)
Inductive OnOff := On | Off.

(** [interface Light] *)
Record Light := mkLight {
  light_id : Z;
  status : OnOff;
  brightness : Z;
  color : LightColor
}.

(** [interface LightGroup] *)
Record LightGroup := mkGroup {
  group_id : Z;
  name : string;
  lightIds : list Z
}.

(** A callback registered with [setTimeout] by [scheduleAction]: the
    closure captures [id], [action] and [time]; [timer_delay] is the delay
    handed to [setTimeout] ([None] stands for [NaN]). *)
Record Timer := mkTimer {
  timer_delay : option Z;
  timer_light : Z;
  timer_action : OnOff;
  timer_time : string
}.

(** The private fields of [LightService], and the runtime's queue of
    pending timer callbacks. *)
Record State := mkState {
  lights : gmap Z Light;
  groups : gmap Z LightGroup;
  groupIdCounter : Z;
  lightIdCounter : Z;
  timers : list Timer
}.

#[global] Instance LightColor_eq_dec : EqDecision LightColor.
Proof. solve_decision. Defined.
#[global] Instance OnOff_eq_dec : EqDecision OnOff.
Proof. solve_decision. Defined.
#[global] Instance Light_eq_dec : EqDecision Light.
Proof. solve_decision. Defined.
#[global] Instance LightGroup_eq_dec : EqDecision LightGroup.
Proof. solve_decision. Defined.

(** ** Errors *)

(** The four [throw new Error(...)] sites, told apart by their message. *)
Inductive Error :=
| LightNotFound
| GroupNotFound
| BrightnessOutOfRange
| ScheduledTimeInPast.

Definition message (e : Error) : string :=
  match e with
  | LightNotFound => "Light not found"
  | GroupNotFound => "Group not found"
  | BrightnessOutOfRange => "Brightness should be between 0 and 100"
  | ScheduledTimeInPast => "Scheduled time must be in the future"
  end.

(** The two failure kinds of the design document (section 7): [NotFound]
    when a referenced light or group id does not exist, [InvalidArgument]
    when a value is outside its allowed range or a scheduling time lies in
    the past. The source raises plain [Error] objects; [kind] sorts its
    four messages into these two kinds. *)
Inductive ErrorKind := NotFound | InvalidArgument.

Definition kind (e : Error) : ErrorKind :=
  match e with
  | LightNotFound | GroupNotFound => NotFound
  | BrightnessOutOfRange | ScheduledTimeInPast => InvalidArgument
  end.

(** ** Methods as state transformers *)

Inductive Result (A : Type) :=
| Ok (a : A)
| Throw (e : Error).
Arguments Ok {A} a.
Arguments Throw {A} e.

Definition M (A : Type) : Type := State → Result A * State.

Definition ret {A} (a : A) : M A := λ s, (Ok a, s).
Definition throw {A} (e : Error) : M A := λ s, (Throw e, s).
Definition bind {A B} (m : M A) (k : A → M B) : M B :=
  λ s, match m s with
       | (Ok a, s') => k a s'
       | (Throw e, s') => (Throw e, s')
       end.
Definition get : M State := λ s, (Ok s, s).
Definition modify (f : State → State) : M unit := λ s, (Ok tt, f s).

Notation "'let*' x ':=' m 'in' k" := (bind m (λ x, k))
  (at level 10, x name, m at level 100, k at level 200, only parsing).
Notation "m '>>>' k" := (bind m (λ _, k))
  (at level 90, right associativity, only parsing).

(** [array.forEach(f)]: the callback runs on the elements in order; an
    exception thrown by a call ends the loop. *)
Fixpoint forEach {A} (l : list A) (f : A → M unit) : M unit :=
  match l with
  | [] => ret tt
  | x :: l' => f x >>> forEach l' f
  end.

(** Field updates. *)
Definition set_lights (f : gmap Z Light → gmap Z Light) (s : State) : State :=
  mkState (f (lights s)) (groups s) (groupIdCounter s) (lightIdCounter s) (timers s).
Definition set_groups (f : gmap Z LightGroup → gmap Z LightGroup) (s : State) : State :=
  mkState (lights s) (f (groups s)) (groupIdCounter s) (lightIdCounter s) (timers s).
Definition set_groupIdCounter (f : Z → Z) (s : State) : State :=
  mkState (lights s) (groups s) (f (groupIdCounter s)) (lightIdCounter s) (timers s).
Definition set_lightIdCounter (f : Z → Z) (s : State) : State :=
  mkState (lights s) (groups s) (groupIdCounter s) (f (lightIdCounter s)) (timers s).
Definition set_timers (f : list Timer → list Timer) (s : State) : State :=
  mkState (lights s) (groups s) (groupIdCounter s) (lightIdCounter s) (f (timers s)).

Definition with_status (v : OnOff) (l : Light) : Light :=
  mkLight (light_id l) v (brightness l) (color l).
Definition with_brightness (b : Z) (l : Light) : Light :=
  mkLight (light_id l) (status l) b (color l).
Definition with_color (c : LightColor) (l : Light) : Light :=
  mkLight (light_id l) (status l) (brightness l) c.
Definition with_lightIds (f : list Z → list Z) (g : LightGroup) : LightGroup :=
  mkGroup (group_id g) (name g) (f (lightIds g)).

(** The light every constructor and [addLight] call creates. *)
Definition newLight (id : Z) : Light := mkLight id Off 0 white.

(** [constructor()]: lights 1 and 2, no group, the counters at 1 and 3. *)
Definition init : State :=
  mkState (<[2 := newLight 2]> (<[1 := newLight 1]> ∅)) ∅ 1 3 [].

(** [verifyLightExists(id)]: [if (!this.lights[id]) throw ...]. *)
Definition verifyLightExists (id : Z) : M unit :=
  let* s := get in
  match lights s !! id with
  | Some _ => ret tt
  | None => throw LightNotFound
  end.

Definition getAllLights : M (gmap Z Light) :=
  let* s := get in ret (lights s).

(** [getLight(id)]: [this.lights[id] || null]. *)
Definition getLight (id : Z) : M (option Light) :=
  let* s := get in ret (lights s !! id).

Definition turnOn (id : Z) : M unit :=
  verifyLightExists id >>>
  modify (set_lights (alter (with_status On) id)).

Definition turnOff (id : Z) : M unit :=
  verifyLightExists id >>>
  modify (set_lights (alter (with_status Off) id)).

Definition setBrightness (id : Z) (b : Z) : M unit :=
  verifyLightExists id >>>
  if (b <? 0) || (b >? 100) then throw BrightnessOutOfRange
  else modify (set_lights (alter (with_brightness b) id)).

Definition setColor (id : Z) (c : LightColor) : M unit :=
  verifyLightExists id >>>
  modify (set_lights (alter (with_color c) id)).

(** [createGroup(name, lightIds)]: every id is verified, then
    [this.groupIdCounter++] names the new group. *)
Definition createGroup (nm : string) (ids : list Z) : M Z :=
  forEach ids verifyLightExists >>>
  let* s := get in
  let groupId := groupIdCounter s in
  modify (set_groupIdCounter (λ c, c + 1)) >>>
  modify (set_groups (<[groupId := mkGroup groupId nm ids]>)) >>>
  ret groupId.

Definition switch (action : OnOff) (id : Z) : M unit :=
  match action with
  | On => turnOn id
  | Off => turnOff id
  end.

Definition controlGroup (groupId : Z) (action : OnOff) : M unit :=
  let* s := get in
  match groups s !! groupId with
  | None => throw GroupNotFound
  | Some group => forEach (lightIds group) (switch action)
  end.

(** [calculateDelay(time)]: [new Date(time).getTime() - now.getTime()].
    [target] is the parsed time, [None] for an unparseable string (whose
    [getTime()] is [NaN], and so is the difference); [now] is the clock. *)
Definition calculateDelay (target : option Z) (now : Z) : option Z :=
  match target with
  | Some t => Some (t - now)
  | None => None
  end.

(** [delay < 0], false on [NaN]. *)
Definition negative (delay : option Z) : bool :=
  match delay with
  | Some d => d <? 0
  | None => false
  end.

Section Scheduling.
(** [new Date(time).getTime()] for a time string: milliseconds since the
    epoch, or [None] for an invalid date. *)
Variable parseDate : string → option Z.

(** [scheduleAction(id, time, action)], run when the clock reads [now]. *)
Definition scheduleAction (now : Z) (id : Z) (time : string) (action : OnOff)
  : M unit :=
  verifyLightExists id >>>
  let delay := calculateDelay (parseDate time) now in
  if negative delay then throw ScheduledTimeInPast
  else modify (set_timers (λ q, q ++ [mkTimer delay id action time])).
End Scheduling.

(** The runtime fires the pending callback at position [i] of the queue:
    the closure of [scheduleAction] calls [turnOn] or [turnOff]. Nothing
    catches what the callback throws. *)
Definition fireTimer (i : nat) : M unit :=
  let* s := get in
  match timers s !! i with
  | None => ret tt
  | Some t =>
      modify (set_timers (delete i)) >>>
      switch (timer_action t) (timer_light t)
  end.

Definition addLightToGroup (groupId lightId : Z) : M unit :=
  verifyLightExists lightId >>>
  let* s := get in
  match groups s !! groupId with
  | None => throw GroupNotFound
  | Some group =>
      if bool_decide (lightId ∈ lightIds group) then ret tt
      else modify (set_groups (alter (with_lightIds (λ l, l ++ [lightId])) groupId))
  end.

(** [lightIds.filter(id => id !== lightId)] *)
Definition without (lightId : Z) (l : list Z) : list Z :=
  filter (λ id, id ≠ lightId) l.

Definition removeLightFromGroup (groupId lightId : Z) : M unit :=
  let* s := get in
  match groups s !! groupId with
  | None => throw GroupNotFound
  | Some _ => modify (set_groups (alter (with_lightIds (without lightId)) groupId))
  end.

(** [deleteLightFromGroup(lightId)]: despite its name it removes the light
    from the system, after removing it from every group. The groups are
    rewritten one by one, independently of each other. *)
Definition deleteLightFromGroup (lightId : Z) : M unit :=
  verifyLightExists lightId >>>
  modify (set_groups (fmap (with_lightIds (without lightId)))) >>>
  modify (set_lights (delete lightId)).

Definition deleteGroup (groupId : Z) : M unit :=
  let* s := get in
  match groups s !! groupId with
  | None => throw GroupNotFound
  | Some _ => modify (set_groups (delete groupId))
  end.

(** [addLight()]: [this.lightIdCounter++] names the new light. *)
Definition addLight : M Z :=
  let* s := get in
  let newLightId := lightIdCounter s in
  modify (set_lightIdCounter (λ c, c + 1)) >>>
  modify (set_lights (<[newLightId := newLight newLightId]>)) >>>
  ret newLightId.

Definition saveState : M unit := ret tt.
Definition loadState : M unit := ret tt.

(** ** Calls and runs *)

(** What a method hands back to its caller. *)
Inductive Value :=
| VUnit
| VId (n : Z)
| VLight (l : option Light)
| VLights (m : gmap Z Light).

(** The public methods of [LightService], and [Fire]: the runtime running
    a pending timer callback. A [ScheduleAction] call carries the clock
    value read by [calculateDelay]. *)
Inductive Op :=
| GetAllLights
| GetLight (id : Z)
| TurnOn (id : Z)
| TurnOff (id : Z)
| SetBrightness (id b : Z)
| SetColor (id : Z) (c : LightColor)
| CreateGroup (nm : string) (ids : list Z)
| ControlGroup (groupId : Z) (action : OnOff)
| ScheduleAction (now : Z) (id : Z) (time : string) (action : OnOff)
| AddLightToGroup (groupId lightId : Z)
| RemoveLightFromGroup (groupId lightId : Z)
| DeleteLightFromGroup (lightId : Z)
| DeleteGroup (groupId : Z)
| AddLight
| SaveState
| LoadState
| Fire (i : nat).

Definition returning {A} (v : A → Value) (m : M A) : M Value :=
  let* a := m in ret (v a).

Definition unit_value (_ : unit) : Value := VUnit.

Section Runs.
Variable parseDate : string → option Z.

Definition exec (op : Op) : M Value :=
  match op with
  | GetAllLights => returning VLights getAllLights
  | GetLight id => returning VLight (getLight id)
  | TurnOn id => returning unit_value (turnOn id)
  | TurnOff id => returning unit_value (turnOff id)
  | SetBrightness id b => returning unit_value (setBrightness id b)
  | SetColor id c => returning unit_value (setColor id c)
  | CreateGroup nm ids => returning VId (createGroup nm ids)
  | ControlGroup g a => returning unit_value (controlGroup g a)
  | ScheduleAction now id time a =>
      returning unit_value (scheduleAction parseDate now id time a)
  | AddLightToGroup g l => returning unit_value (addLightToGroup g l)
  | RemoveLightFromGroup g l => returning unit_value (removeLightFromGroup g l)
  | DeleteLightFromGroup l => returning unit_value (deleteLightFromGroup l)
  | DeleteGroup g => returning unit_value (deleteGroup g)
  | AddLight => returning VId addLight
  | SaveState => returning unit_value saveState
  | LoadState => returning unit_value loadState
  | Fire i => returning unit_value (fireTimer i)
  end.

(** A run: the calls are made one after the other, whatever each
    returns or throws; the results are collected in order. *)
Fixpoint run (ops : list Op) (s : State) : list (Op * Result Value) * State :=
  match ops with
  | [] => ([], s)
  | op :: ops' =>
      let '(r, s') := exec op s in
      let '(rs, s'') := run ops' s' in
      ((op, r) :: rs, s'')
  end.

(** The states the service can be in: those a run from the state built
    by the constructor ends in. *)
Definition reachable (s : State) : Prop :=
  ∃ ops, (run ops init).2 = s.

(** The ids handed out by the [addLight] calls of a run, in call order. *)
Fixpoint allocated (log : list (Op * Result Value)) : list Z :=
  match log with
  | [] => []
  | (AddLight, Ok (VId n)) :: log' => n :: allocated log'
  | _ :: log' => allocated log'
  end.
End Runs.

(** ** State predicates *)

(** Referential integrity: the members of every group are lights of the
    store. *)
Definition members_exist (s : State) : Prop :=
  ∀ gid g id, groups s !! gid = Some g → id ∈ lightIds g →
              is_Some (lights s !! id).

(** No group lists a light twice. *)
Definition members_distinct (s : State) : Prop :=
  ∀ gid g, groups s !! gid = Some g → NoDup (lightIds g).

(** Every light of the store was named by the seed or by the counter. *)
Definition lights_below_counter (s : State) : Prop :=
  ∀ id l, lights s !! id = Some l → id < lightIdCounter s.

(** ** Vocabulary of the statements *)

(** What [turnOn] and [turnOff] may touch: the status of light [id]. *)
Definition only_status_set (id : Z) (v : OnOff) (s s' : State) : Prop :=
  (∃ l, lights s !! id = Some l ∧
        lights s' !! id = Some (mkLight (light_id l) v (brightness l) (color l))) ∧
  (∀ j, j ≠ id → lights s' !! j = lights s !! j) ∧
  groups s' = groups s ∧
  groupIdCounter s' = groupIdCounter s ∧
  lightIdCounter s' = lightIdCounter s ∧
  timers s' = timers s.

(** A member list mentions an id that is not a light of the store. *)
Definition unknown_member (s : State) (ids : list Z) : Prop :=
  ∃ id, id ∈ ids ∧ lights s !! id = None.

(** Every id of a member list is a light of the store. *)
Definition all_known (s : State) (ids : list Z) : Prop :=
  ∀ id, id ∈ ids → is_Some (lights s !! id).

(** The state [createGroup] builds when it succeeds. *)
Definition group_added (nm : string) (ids : list Z) (s : State) : State :=
  mkState (lights s)
          (<[groupIdCounter s := mkGroup (groupIdCounter s) nm ids]> (groups s))
          (groupIdCounter s + 1) (lightIdCounter s) (timers s).

(** The state [deleteLightFromGroup] builds when it succeeds. *)
Definition light_deleted (lightId : Z) (s : State) : State :=
  mkState (delete lightId (lights s))
          (with_lightIds (without lightId) <$> groups s)
          (groupIdCounter s) (lightIdCounter s) (timers s).

(** [addLightToGroup] on an existing group and light: the member list
    afterwards. *)
Definition member_added (lightId : Z) (l : list Z) : list Z :=
  if bool_decide (lightId ∈ l) then l else l ++ [lightId].

(** The lights map after [turnOn] or [turnOff] has run on the ids of a
    list, first to last. *)
Definition switched (v : OnOff) (ids : list Z) (m : gmap Z Light) : gmap Z Light :=
  foldl (λ m id, alter (with_status v) id m) m ids.

(** What a group action over the member ids [ids] does: each of those
    lights that exists has status [v] afterwards, with its id, brightness
    and color as before; nothing else is touched. *)
Definition toggled (v : OnOff) (ids : list Z) (s s' : State) : Prop :=
  (∀ j, j ∈ ids →
        lights s' !! j
        = (λ l, mkLight (light_id l) v (brightness l) (color l))
            <$> lights s !! j) ∧
  (∀ j l', j ∈ ids → lights s' !! j = Some l' → status l' = v) ∧
  (∀ j, j ∉ ids → lights s' !! j = lights s !! j) ∧
  groups s' = groups s ∧
  groupIdCounter s' = groupIdCounter s ∧
  lightIdCounter s' = lightIdCounter s ∧
  timers s' = timers s.

(** A state outside the reachable ones: group 1 lists lights 1, 9 and 2,
    and light 9 is gone. *)
Definition dangling_member_state : State :=
  mkState (lights init) (<[1 := mkGroup 1 "G" [1; 9; 2]]> ∅) 2 3 [].

(** The state [addLight] builds. *)
Definition light_added (s : State) : State :=
  mkState (<[lightIdCounter s := newLight (lightIdCounter s)]> (lights s))
          (groups s) (groupIdCounter s) (lightIdCounter s + 1) (timers s).

(** Two states with the same groups, the same counters and the same light
    ids: only fields of lights and the timer queue may differ. *)
Definition same_shape (s s' : State) : Prop :=
  groups s' = groups s ∧
  groupIdCounter s' = groupIdCounter s ∧
  lightIdCounter s' = lightIdCounter s ∧
  ∀ j, is_Some (lights s' !! j) ↔ is_Some (lights s !! j).

(** Every way a call can change the state. [P] is what is known of the
    member lists handed to [createGroup]. *)
Inductive effect (P : list Z → Prop) (s : State) : State → Prop :=
| effect_shape s' :
    same_shape s s' → effect P s s'
| effect_group_added nm ids :
    P ids → all_known s ids → effect P s (group_added nm ids s)
| effect_member_added groupId lightId g :
    is_Some (lights s !! lightId) → groups s !! groupId = Some g →
    lightId ∉ lightIds g →
    effect P s (set_groups (alter (with_lightIds (λ l, l ++ [lightId])) groupId) s)
| effect_member_removed groupId lightId :
    effect P s (set_groups (alter (with_lightIds (without lightId)) groupId) s)
| effect_light_deleted lightId :
    effect P s (light_deleted lightId s)
| effect_group_deleted groupId :
    effect P s (set_groups (delete groupId) s)
| effect_light_added :
    effect P s (light_added s).

(** What a call must satisfy for its effect to be in [effect P]. *)
Definition creates_only (P : list Z → Prop) (op : Op) : Prop :=
  match op with
  | CreateGroup _ ids => P ids
  | _ => True
  end.

(** Every group of the store was named by the group counter. *)
Definition groups_below_counter (s : State) : Prop :=
  ∀ gid g, groups s !! gid = Some g → gid < groupIdCounter s.

(** The number of [addLight] calls among the calls of a run. *)
Fixpoint addLight_calls (ops : list Op) : nat :=
  match ops with
  | [] => 0%nat
  | AddLight :: ops' => S (addLight_calls ops')
  | _ :: ops' => addLight_calls ops'
  end.

(** ** The rate limiter of [index.ts] *)

(** [15 * 60 * 1000]: the window, in milliseconds. *)
Definition windowMs : Z := 15 * 60 * 1000.

(** [requests[ip].filter(timestamp => Date.now() - timestamp < window)]:
    the callback reads the clock once per element; [clock j] is what the
    [j]-th call of [Date.now()] of the current request returns, and [k]
    counts the calls made so far. *)
Fixpoint prune (clock : nat → Z) (k : nat) (l : list Z) : list Z :=
  match l with
  | [] => []
  | timestamp :: l' =>
      if clock k - timestamp <? windowMs
      then timestamp :: prune clock (S k) l'
      else prune clock (S k) l'
  end.

(** What the middleware does with the request: [next()], or
    [res.status(429).json({ message })]. *)
Inductive Verdict :=
| Next
| TooMany (message : string).

(** The middleware [rateLimit(limit, message)] on one request. The closure
    variable [requests] is the state; [ip] is [req.ip] ([None] when it is
    undefined). After the filter made one clock call per stored
    timestamp, the push makes the next one. *)
Definition rateLimit (limit : Z) (message : string)
    (ip : option string) (clock : nat → Z) (requests : gmap string (list Z))
  : Verdict * gmap string (list Z) :=
  let ip := default "" ip in
  let stored := default [] (requests !! ip) in
  let kept := prune clock 0 stored in
  if limit <=? Z.of_nat (length kept)
  then (TooMany message, <[ip := kept]> requests)
  else (Next, <[ip := kept ++ [clock (length stored)]]> requests).

(** A request as the limiter sees it. *)
Record Request := mkRequest {
  req_ip : option string;
  req_clock : nat → Z
}.

(** The requests the limiter lets through, with the timestamp it records
    for each, in order of arrival. *)
Fixpoint passed (limit : Z) (message : string) (rs : list Request)
    (requests : gmap string (list Z)) : list (string * Z) :=
  match rs with
  | [] => []
  | r :: rs' =>
      let ip := default "" (req_ip r) in
      let stamp := req_clock r (length (default [] (requests !! ip))) in
      match rateLimit limit message (req_ip r) (req_clock r) requests with
      | (Next, requests') => (ip, stamp) :: passed limit message rs' requests'
      | (TooMany _, requests') => passed limit message rs' requests'
      end
  end.

(** The state of the limiter after a sequence of requests. *)
Definition limiter_after (limit : Z) (message : string) (rs : list Request)
    (requests : gmap string (list Z)) : gmap string (list Z) :=
  foldl (λ m r, (rateLimit limit message (req_ip r) (req_clock r) m).2) requests rs.

(** The timestamps of [l] less than a window before [now]. *)
Definition recent (now : Z) (l : list Z) : list Z :=
  filter (λ timestamp, now - timestamp < windowMs) l.

(** The timestamps recorded for [ip] in a log of passed requests. *)
Fixpoint stamps (ip : string) (log : list (string * Z)) : list Z :=
  match log with
  | [] => []
  | (ip', t) :: log' =>
      if decide (ip' = ip) then t :: stamps ip log' else stamps ip log'
  end.

(** Time does not run backwards: the readings of one request never
    decrease, and no reading of a request is above a reading of a later
    request. *)
Fixpoint clock_advances (rs : list Request) : Prop :=
  match rs with
  | [] => True
  | r :: rs' =>
      (∀ k, req_clock r k ≤ req_clock r (S k)) ∧
      Forall (λ r', ∀ k j, req_clock r k ≤ req_clock r' j) rs' ∧
      clock_advances rs'
  end.

(** ** Routes of [index.ts] *)

(** The JSON bodies the routes below send. *)
Inductive Body :=
| BMessage (message : string)
| BError (error : string)
| BLight (light : Light).

(** [res.status(code).json(body)]; [res.json(body)] alone sends 200. *)
Record Response := mkResponse {
  res_status : Z;
  res_body : Body
}.

(** The error-handling middleware: whatever a handler throws is answered
    with 500 and a fixed text. *)
Definition errorResponse : Response :=
  mkResponse 500 (BError "Something went wrong!").

(** [asyncHandler(fn)] followed by the error middleware: the handler's
    service call either returns, and the handler replies, or throws, and
    the error middleware replies. *)
Definition asyncHandler {A} (call : M A) (reply : A → Response)
  : State → Response * State :=
  λ s, match call s with
       | (Ok a, s') => (reply a, s')
       | (Throw _, s') => (errorResponse, s')
       end.

(** [validateId]: [id] is [Number(req.params.id)], [None] standing for
    [NaN]; [isNaN(id) || id < 1] answers 400, otherwise the next handler
    runs (and parses the same number again). *)
Definition validateId (id : option Z) (next : Z → State → Response * State)
  : State → Response * State :=
  λ s, match id with
       | None => (mkResponse 400 (BError "Invalid light ID"), s)
       | Some n =>
           if n <? 1 then (mkResponse 400 (BError "Invalid light ID"), s)
           else next n s
       end.

(** [POST /lights/:id/on] *)
Definition route_turnOn (id : option Z) : State → Response * State :=
  validateId id (λ id,
    asyncHandler (turnOn id) (λ _,
      mkResponse 200 (BMessage ("Light " +:+ pretty id +:+ " turned on")))).

(** [POST /lights/:id/off] *)
Definition route_turnOff (id : option Z) : State → Response * State :=
  validateId id (λ id,
    asyncHandler (turnOff id) (λ _,
      mkResponse 200 (BMessage ("Light " +:+ pretty id +:+ " turned off")))).

(** A service method called with a number that came from a path segment
    without validation: on [NaN] the lookup [this.lights[NaN]] finds
    nothing, so [verifyLightExists] throws. *)
Definition onLight {A} (lightId : option Z) (method : Z → M A) : M A :=
  match lightId with
  | Some n => method n
  | None => throw LightNotFound
  end.

Section NumberText.
(** The text a template literal gives a number that came from a path
    segment (the language's number-to-string conversion): the decimal
    numeral for an integer of magnitude below 2^53, a rounded or exponent
    form such as [1e+21] beyond. It is taken as given. *)
Variable numberToString : Z → string.

(** [GET /lights/:id] *)
Definition route_getLight (id : option Z) : State → Response * State :=
  validateId id (λ id,
    asyncHandler (getLight id) (λ light,
      match light with
      | None =>
          mkResponse 404
            (BError ("Light with ID " +:+ numberToString id +:+ " not found"))
      | Some l => mkResponse 200 (BLight l)
      end)).

(** [DELETE /groups/:id/remove-light/:lightId]: only [:id] goes through
    [validateId]; the handler calls [deleteLightFromGroup(lightId)]. *)
Definition route_removeLight (id lightId : option Z) : State → Response * State :=
  validateId id (λ groupId,
    asyncHandler (onLight lightId deleteLightFromGroup) (λ _,
      mkResponse 200
        (BMessage ("Light " +:+ from_option numberToString "NaN" lightId
                   +:+ " removed from group " +:+ numberToString groupId)))).
End NumberText.

(** ** Vocabulary of the further properties *)

(** The state [s'] differs from [s] at most in the record of light [id],
    which is now [l']. *)
Definition only_light_changed (id : Z) (l' : Light) (s s' : State) : Prop :=
  lights s' !! id = Some l' ∧
  (∀ j, j ≠ id → lights s' !! j = lights s !! j) ∧
  groups s' = groups s ∧
  groupIdCounter s' = groupIdCounter s ∧
  lightIdCounter s' = lightIdCounter s ∧
  timers s' = timers s.

(** The state [s'] differs from [s] at most in the record of group
    [groupId], which is now [g']. *)
Definition only_group_changed (groupId : Z) (g' : LightGroup) (s s' : State) : Prop :=
  groups s' !! groupId = Some g' ∧
  (∀ j, j ≠ groupId → groups s' !! j = groups s !! j) ∧
  lights s' = lights s ∧
  groupIdCounter s' = groupIdCounter s ∧
  lightIdCounter s' = lightIdCounter s ∧
  timers s' = timers s.

(** A light record after a method has updated it in place: the id is the
    same, and the brightness is either the same or a value in range. *)
Definition light_kept (l l' : Light) : Prop :=
  light_id l' = light_id l ∧
  (brightness l' = brightness l ∨ 0 ≤ brightness l' ≤ 100).

(** Two states of the same shape whose lights correspond as [light_kept]
    says. *)
Definition lights_kept (s s' : State) : Prop :=
  same_shape s s' ∧
  ∀ id l', lights s' !! id = Some l' →
           ∃ l, lights s !! id = Some l ∧ light_kept l l'.

(** The states a call can end in, call by call. *)
Definition outcome (op : Op) (s s' : State) : Prop :=
  match op with
  | AddLight => s' = light_added s
  | CreateGroup nm ids =>
      s' = s ∨ (all_known s ids ∧ s' = group_added nm ids s)
  | AddLightToGroup groupId lightId =>
      s' = s ∨
      ∃ g, is_Some (lights s !! lightId) ∧ groups s !! groupId = Some g ∧
           (lightId ∉ lightIds g) ∧
           s' = set_groups (alter (with_lightIds (λ l, l ++ [lightId])) groupId) s
  | RemoveLightFromGroup groupId lightId =>
      s' = s ∨
      s' = set_groups (alter (with_lightIds (without lightId)) groupId) s
  | DeleteLightFromGroup lightId =>
      s' = s ∨ (is_Some (lights s !! lightId) ∧ s' = light_deleted lightId s)
  | DeleteGroup groupId =>
      s' = s ∨ (is_Some (groups s !! groupId) ∧ s' = set_groups (delete groupId) s)
  | _ => lights_kept s s'
  end.

(** Every light is stored under its own id and has a brightness between
    0 and 100. *)
Definition lights_wf (s : State) : Prop :=
  ∀ id l, lights s !! id = Some l → light_id l = id ∧ 0 ≤ brightness l ≤ 100.

(** Every group is stored under its own id, and the ids in use lie between
    1 and the group counter. *)
Definition groups_wf (s : State) : Prop :=
  1 ≤ groupIdCounter s ∧
  ∀ gid g, groups s !! gid = Some g →
           group_id g = gid ∧ 1 ≤ gid < groupIdCounter s.

(** The ids returned by the successful [createGroup] calls of a run, in
    call order. *)
Fixpoint created (log : list (Op * Result Value)) : list Z :=
  match log with
  | [] => []
  | (CreateGroup _ _, Ok (VId n)) :: log' => n :: created log'
  | _ :: log' => created log'
  end.

(** Light [id] is not in the store and its id is behind the counter. *)
Definition gone (id : Z) (s : State) : Prop :=
  lights s !! id = None ∧ id < lightIdCounter s.

(** The delay [scheduleAction] accepts: the time string does not parse
    (the delay is [NaN], and [NaN < 0] is false), or it parses to a time
    that is not before the clock. *)
Definition not_in_past (target : option Z) (now : Z) : Prop :=
  target = None ∨ ∃ t, target = Some t ∧ now ≤ t.

(** ** Evaluation lemmas *)

Lemma verifyLightExists_found (s : State) (id : Z) (l : Light) :
  lights s !! id = Some l → verifyLightExists id s = (Ok tt, s).
Proof. intros H. unfold verifyLightExists, bind, get. simpl. by rewrite H. Qed.

Lemma verifyLightExists_missing (s : State) (id : Z) :
  lights s !! id = None → verifyLightExists id s = (Throw LightNotFound, s).
Proof. intros H. unfold verifyLightExists, bind, get. simpl. by rewrite H. Qed.

Lemma verified_bind {A} (s : State) (id : Z) (l : Light) :
  lights s !! id = Some l →
  ∀ k : M A, (verifyLightExists id >>> k) s = k s.
Proof.
  intros H k. unfold bind at 1. by rewrite (verifyLightExists_found s id l H).
Qed.

Lemma unverified_bind {A} (s : State) (id : Z) :
  lights s !! id = None →
  ∀ k : M A, (verifyLightExists id >>> k) s = (Throw LightNotFound, s).
Proof.
  intros H k. unfold bind at 1. by rewrite (verifyLightExists_missing s id H).
Qed.

Lemma switch_found (s : State) (v : OnOff) (id : Z) (l : Light) :
  lights s !! id = Some l →
  switch v id s = (Ok tt, set_lights (alter (with_status v) id) s).
Proof.
  intros H. destruct v; unfold switch, turnOn, turnOff;
    by rewrite (verified_bind s id l).
Qed.

Lemma switch_missing (s : State) (v : OnOff) (id : Z) :
  lights s !! id = None → switch v id s = (Throw LightNotFound, s).
Proof.
  intros H. destruct v; unfold switch, turnOn, turnOff;
    by rewrite unverified_bind.
Qed.

(** Verifying a list of ids never changes the state; it succeeds exactly
    when every id is a light of the store. *)
Lemma forEach_verify_ok (s : State) (ids : list Z) :
  Forall (λ id, is_Some (lights s !! id)) ids →
  forEach ids verifyLightExists s = (Ok tt, s).
Proof.
  induction 1 as [|id ids [l Hl] _ IH]; [done|].
  simpl. by rewrite (verified_bind s id l).
Qed.

Lemma forEach_verify_fail (s : State) (ids : list Z) :
  Exists (λ id, lights s !! id = None) ids →
  forEach ids verifyLightExists s = (Throw LightNotFound, s).
Proof.
  induction ids as [|id ids IH]; intros H; [by apply Exists_nil in H|].
  simpl. destruct (lights s !! id) as [l|] eqn:Hid.
  - rewrite (verified_bind s id l Hid). apply IH.
    apply Exists_cons in H as [H|H]; [congruence|done].
  - by rewrite unverified_bind.
Qed.

(** ** Single lights *)

Lemma switch_only_status_set (s : State) (v : OnOff) (id : Z) (l : Light) :
  lights s !! id = Some l →
  only_status_set id v s (set_lights (alter (with_status v) id) s).
Proof.
  intros H. repeat split; simpl; try done.
  - exists l. split; [done|]. by rewrite lookup_alter_eq, H.
  - intros j Hj. by rewrite lookup_alter_ne.
Qed.

(** C10. When light [id] exists, [turnOn id] and [turnOff id] succeed and
    change nothing but the status of that light: its id, brightness and
    color, every other light, the groups (hence every membership list) and
    both id counters stay as they were. *)
Theorem turnOn_turnOff_frame (s : State) (id : Z) :
  is_Some (lights s !! id) →
  (turnOn id s).1 = Ok tt ∧ only_status_set id On s (turnOn id s).2 ∧
  (turnOff id s).1 = Ok tt ∧ only_status_set id Off s (turnOff id s).2.
Proof.
  intros [l Hl].
  pose proof (switch_found s On id l Hl) as Hon.
  pose proof (switch_found s Off id l Hl) as Hoff.
  simpl in Hon, Hoff. rewrite Hon, Hoff. simpl.
  repeat split; try done; by apply (switch_only_status_set s _ id l).
Qed.

Lemma turnOn_turnOff_frame_witness :
  (turnOn 1 init).1 = Ok tt ∧ only_status_set 1 On init (turnOn 1 init).2 ∧
  (turnOff 1 init).1 = Ok tt ∧ only_status_set 1 Off init (turnOff 1 init).2.
Proof. apply (turnOn_turnOff_frame init 1). by eexists. Defined.

(** C7. When light [id] exists, [setBrightness id b] with [0 <= b <= 100]
    succeeds and [getLight id] then shows brightness [b]; with [b] outside
    that range it throws the brightness error, of kind [InvalidArgument],
    and leaves the state as it was. When light [id] does not exist it
    throws the light error, of kind [NotFound]. *)
Theorem setBrightness_spec (s : State) (id b : Z) :
  (is_Some (lights s !! id) →
     (0 ≤ b ≤ 100 →
        ∃ s' l', setBrightness id b s = (Ok tt, s') ∧
                 getLight id s' = (Ok (Some l'), s') ∧ brightness l' = b) ∧
     (b < 0 ∨ 100 < b →
        setBrightness id b s = (Throw BrightnessOutOfRange, s) ∧
        kind BrightnessOutOfRange = InvalidArgument)) ∧
  (lights s !! id = None →
     setBrightness id b s = (Throw LightNotFound, s) ∧
     kind LightNotFound = NotFound).
Proof.
  split.
  - intros [l Hl]. unfold setBrightness. rewrite (verified_bind s id l Hl).
    split.
    + intros Hb.
      replace ((b <? 0) || (b >? 100)) with false by lia.
      eexists _, (with_brightness b l). split; [done|].
      unfold getLight, bind, get, ret, modify. simpl.
      by rewrite lookup_alter_eq, Hl.
    + intros Hb.
      replace ((b <? 0) || (b >? 100)) with true by lia. done.
  - intros Hnone. unfold setBrightness. by rewrite unverified_bind.
Qed.

Lemma setBrightness_spec_witness :
  (∃ s' l', setBrightness 1 75 init = (Ok tt, s') ∧
            getLight 1 s' = (Ok (Some l'), s') ∧ brightness l' = 75) ∧
  setBrightness 1 101 init = (Throw BrightnessOutOfRange, init) ∧
  setBrightness 7 75 init = (Throw LightNotFound, init).
Proof.
  split; [|split].
  - destruct (setBrightness_spec init 1 75) as [H _].
    destruct H as [H _]; [by eexists|]. apply H. lia.
  - destruct (setBrightness_spec init 1 101) as [H _].
    destruct H as [_ H]; [by eexists|]. apply H. lia.
  - destruct (setBrightness_spec init 7 75) as [_ H]. by apply H.
Defined.

(** ** Groups *)

Lemma unknown_member_Exists (s : State) (ids : list Z) :
  unknown_member s ids → Exists (λ id, lights s !! id = None) ids.
Proof. intros (id & Hin & Hid). apply Exists_exists. eauto. Qed.

Lemma all_known_Forall (s : State) (ids : list Z) :
  all_known s ids → Forall (λ id, is_Some (lights s !! id)) ids.
Proof. intros H. by apply Forall_forall. Qed.

Lemma createGroup_known (s : State) (nm : string) (ids : list Z) :
  all_known s ids →
  createGroup nm ids s = (Ok (groupIdCounter s), group_added nm ids s).
Proof.
  intros H. unfold createGroup. unfold bind at 1.
  by rewrite (forEach_verify_ok s ids (all_known_Forall s ids H)).
Qed.

Lemma createGroup_unknown (s : State) (nm : string) (ids : list Z) :
  unknown_member s ids → createGroup nm ids s = (Throw LightNotFound, s).
Proof.
  intros H. unfold createGroup. unfold bind at 1.
  by rewrite (forEach_verify_fail s ids (unknown_member_Exists s ids H)).
Qed.

(** C1, as the code has it. If some id of [lightIds] is not a light of the
    store, [createGroup] throws the error of [verifyLightExists] ("Light not
    found", kind [NotFound]) and the state is exactly what it was: no
    group, no counter step. If every id is a light, the call returns the
    value of the group counter and stores under it a group with exactly
    the given name and member list, stepping the counter by one and
    touching nothing else. *)
Theorem createGroup_all_or_nothing (s : State) (nm : string) (ids : list Z) :
  (unknown_member s ids →
     createGroup nm ids s = (Throw LightNotFound, s) ∧
     kind LightNotFound = NotFound) ∧
  (all_known s ids →
     createGroup nm ids s = (Ok (groupIdCounter s), group_added nm ids s) ∧
     groups (group_added nm ids s) !! groupIdCounter s
       = Some (mkGroup (groupIdCounter s) nm ids)).
Proof.
  split; intros H.
  - split; [by apply createGroup_unknown|done].
  - split; [by apply createGroup_known|]. simpl. apply lookup_insert_eq.
Qed.

Lemma createGroup_all_or_nothing_witness :
  createGroup "G" [1; 999] init = (Throw LightNotFound, init) ∧
  createGroup "G" [1; 2] init = (Ok 1, group_added "G" [1; 2] init).
Proof.
  split.
  - destruct (createGroup_all_or_nothing init "G" [1; 999]) as [H _].
    apply H. exists 999. split; [|done].
    apply elem_of_cons. right. apply elem_of_cons. by left.
  - destruct (createGroup_all_or_nothing init "G" [1; 2]) as [_ H].
    apply H. intros id Hid.
    apply elem_of_cons in Hid as [-> | Hid]; [by eexists|].
    apply elem_of_cons in Hid as [-> | Hid]; [by eexists|].
    by apply elem_of_nil in Hid.
Defined.

(** C1 as stated fails on the kind of the error: the failing [createGroup]
    throws what [turnOn] throws for a missing light, and that error is of
    kind [NotFound], which is not [InvalidArgument]. *)
Lemma createGroup_unknown_member_is_NotFound :
  ∃ e, createGroup "G" [1; 999] init = (Throw e, init) ∧
       turnOn 999 init = (Throw e, init) ∧
       message e = "Light not found" ∧
       kind e = NotFound ∧
       kind e ≠ InvalidArgument.
Proof. exists LightNotFound. repeat split; done. Qed.

Lemma not_in_without (lightId : Z) (l : list Z) : lightId ∉ without lightId l.
Proof. unfold without. rewrite list_elem_of_filter. tauto. Qed.

Lemma in_without (lightId id : Z) (l : list Z) :
  id ∈ without lightId l ↔ id ≠ lightId ∧ id ∈ l.
Proof. unfold without. by rewrite list_elem_of_filter. Qed.

Lemma deleteLightFromGroup_found (s : State) (lightId : Z) (l : Light) :
  lights s !! lightId = Some l →
  deleteLightFromGroup lightId s = (Ok tt, light_deleted lightId s).
Proof.
  intros H. unfold deleteLightFromGroup. by rewrite (verified_bind s lightId l H).
Qed.

(** C4. [deleteLightFromGroup] is the method that deletes a light from the
    system. When the light exists, the call succeeds; afterwards no group
    lists the id (each group keeps its other members, in order), the
    lights map has lost the id and [getLight] returns [null] for it. When
    the light does not exist, the call throws the light error, of kind
    [NotFound], and changes nothing. *)
Theorem deleteLightFromGroup_spec (s : State) (lightId : Z) :
  (is_Some (lights s !! lightId) →
     ∃ s', deleteLightFromGroup lightId s = (Ok tt, s') ∧
           (∀ gid g', groups s' !! gid = Some g' → lightId ∉ lightIds g') ∧
           (∀ gid, groups s' !! gid
                   = with_lightIds (without lightId) <$> groups s !! gid) ∧
           lights s' = delete lightId (lights s) ∧
           getLight lightId s' = (Ok None, s')) ∧
  (lights s !! lightId = None →
     deleteLightFromGroup lightId s = (Throw LightNotFound, s) ∧
     kind LightNotFound = NotFound).
Proof.
  split.
  - intros [l Hl]. exists (light_deleted lightId s).
    split; [by apply (deleteLightFromGroup_found s lightId l)|].
    split; [|split; [|split]].
    + intros gid g'. simpl. rewrite lookup_fmap.
      destruct (groups s !! gid) as [g|]; simpl; [|done].
      intros [= <-]. simpl. apply not_in_without.
    + intros gid. simpl. apply lookup_fmap.
    + done.
    + unfold getLight, bind, get, ret. simpl. by rewrite lookup_delete_eq.
  - intros H. split; [|done]. unfold deleteLightFromGroup.
    by rewrite unverified_bind.
Qed.

Lemma deleteLightFromGroup_spec_witness :
  (∃ s', deleteLightFromGroup 2 init = (Ok tt, s') ∧
         getLight 2 s' = (Ok None, s')) ∧
  deleteLightFromGroup 9 init = (Throw LightNotFound, init).
Proof.
  split.
  - destruct (deleteLightFromGroup_spec init 2) as [H _].
    destruct H as (s' & H1 & _ & _ & _ & H2); [by eexists|]. by exists s'.
  - destruct (deleteLightFromGroup_spec init 9) as [_ H]. by apply H.
Defined.

Lemma member_added_In (lightId : Z) (l : list Z) : lightId ∈ member_added lightId l.
Proof.
  unfold member_added. case_bool_decide; [done|].
  apply elem_of_app. right. by apply list_elem_of_singleton.
Qed.

Lemma member_added_NoDup (lightId : Z) (l : list Z) :
  NoDup l → NoDup (member_added lightId l).
Proof.
  intros H. unfold member_added. case_bool_decide; [done|].
  apply NoDup_app. split; [done|]. split; [|apply NoDup_singleton].
  intros x Hx Hx'. apply list_elem_of_singleton in Hx'. by subst.
Qed.

Lemma addLightToGroup_found (s : State) (groupId lightId : Z)
    (l : Light) (g : LightGroup) :
  lights s !! lightId = Some l → groups s !! groupId = Some g →
  addLightToGroup groupId lightId s
  = (Ok tt, if bool_decide (lightId ∈ lightIds g) then s
            else set_groups (alter (with_lightIds (λ l, l ++ [lightId])) groupId) s).
Proof.
  intros Hl Hg. unfold addLightToGroup. rewrite (verified_bind s lightId l Hl).
  unfold bind, get. simpl. rewrite Hg. by case_bool_decide.
Qed.

(** C9, as the code has it. When group and light both exist,
    [addLightToGroup] succeeds, and a second call right after it succeeds
    and leaves the state of the first call untouched. The member list then
    holds the light id: it is the old list when the id was already in it,
    and the old list with the id appended otherwise, so that it is free of
    duplicates whenever the old list was. *)
Theorem addLightToGroup_idempotent (s : State) (groupId lightId : Z)
    (g : LightGroup) :
  is_Some (lights s !! lightId) → groups s !! groupId = Some g →
  ∃ s1 g1,
    addLightToGroup groupId lightId s = (Ok tt, s1) ∧
    addLightToGroup groupId lightId s1 = (Ok tt, s1) ∧
    groups s1 !! groupId = Some g1 ∧
    lightIds g1 = member_added lightId (lightIds g) ∧
    lightId ∈ lightIds g1 ∧
    (NoDup (lightIds g) → NoDup (lightIds g1)).
Proof.
  intros [l Hl] Hg.
  pose proof (addLightToGroup_found s groupId lightId l g Hl Hg) as H1.
  set (s1 := if bool_decide (lightId ∈ lightIds g) then s
             else set_groups (alter (with_lightIds (λ l, l ++ [lightId])) groupId) s)
    in H1.
  set (g1 := with_lightIds (member_added lightId) g).
  assert (lights s1 !! lightId = Some l) as Hl1.
  { subst s1. by case_bool_decide. }
  assert (groups s1 !! groupId = Some g1) as Hg1.
  { subst s1 g1. unfold with_lightIds, member_added.
    case_bool_decide; simpl.
    - rewrite Hg. by destruct g.
    - by rewrite lookup_alter_eq, Hg. }
  exists s1, g1. split; [done|]. split; [|split; [done|]].
  - rewrite (addLightToGroup_found s1 groupId lightId l g1 Hl1 Hg1).
    rewrite bool_decide_eq_true_2; [done|]. apply member_added_In.
  - split; [done|]. split; [apply member_added_In|apply member_added_NoDup].
Qed.

Lemma addLightToGroup_idempotent_witness :
  ∃ s1 g1,
    addLightToGroup 1 2 (group_added "G" [1] init) = (Ok tt, s1) ∧
    addLightToGroup 1 2 s1 = (Ok tt, s1) ∧
    groups s1 !! 1 = Some g1 ∧
    lightIds g1 = member_added 2 [1] ∧
    2 ∈ lightIds g1 ∧
    (NoDup [1] → NoDup (lightIds g1)).
Proof.
  apply (addLightToGroup_idempotent (group_added "G" [1] init) 1 2
           (mkGroup 1 "G" [1])).
  - by eexists.
  - reflexivity.
Defined.

(** C9 as stated fails where the member list already repeats an id: the
    state reached by [createGroup("G", [1, 1])] has group 1 and light 1;
    calling [addLightToGroup(1, 1)] twice succeeds both times and leaves
    the member list [[1; 1]], which holds light 1 twice. *)
Lemma addLightToGroup_keeps_old_duplicates :
  ∃ s1 g1,
    createGroup "G" [1; 1] init = (Ok 1, group_added "G" [1; 1] init) ∧
    is_Some (lights (group_added "G" [1; 1] init) !! 1) ∧
    is_Some (groups (group_added "G" [1; 1] init) !! 1) ∧
    addLightToGroup 1 1 (group_added "G" [1; 1] init) = (Ok tt, s1) ∧
    addLightToGroup 1 1 s1 = (Ok tt, s1) ∧
    groups s1 !! 1 = Some g1 ∧
    lightIds g1 = [1; 1] ∧
    ¬ NoDup (lightIds g1).
Proof.
  exists (group_added "G" [1; 1] init), (mkGroup 1 "G" [1; 1]).
  repeat split; try done; try by eexists.
  simpl. intros H. apply NoDup_cons in H as [H _]. apply H.
  apply elem_of_cons. by left.
Qed.

Section ScheduleAction.
Variable parseDate : string → option Z.

(** C8. [scheduleAction], called when the clock reads [now]: it throws
    the light error, of kind [NotFound], when the light does not exist;
    when the light exists and the time string parses to a time [t]
    strictly before [now] (so that the delay [t - now] is negative) it
    throws the scheduling error, of kind [InvalidArgument]. In both cases
    the state, and with it the status of every light, is what it was, and
    no timer has been registered. *)
Theorem scheduleAction_failures (s : State) (now id : Z) (time : string)
    (action : OnOff) :
  (lights s !! id = None →
     scheduleAction parseDate now id time action s = (Throw LightNotFound, s) ∧
     kind LightNotFound = NotFound) ∧
  (is_Some (lights s !! id) →
     ∀ t, parseDate time = Some t → t < now →
       calculateDelay (parseDate time) now = Some (t - now) ∧
       scheduleAction parseDate now id time action s
         = (Throw ScheduledTimeInPast, s) ∧
       kind ScheduledTimeInPast = InvalidArgument).
Proof.
  split.
  - intros H. unfold scheduleAction. by rewrite unverified_bind.
  - intros [l Hl] t Ht Hlt. unfold scheduleAction.
    rewrite (verified_bind s id l Hl), Ht. simpl.
    replace (t - now <? 0) with true by lia. done.
Qed.

(** Whatever [scheduleAction] throws, the state is left as it was. *)
Lemma scheduleAction_throw_state (s s' : State) (now id : Z) (time : string)
    (action : OnOff) (e : Error) :
  scheduleAction parseDate now id time action s = (Throw e, s') → s' = s.
Proof.
  unfold scheduleAction. destruct (lights s !! id) as [l|] eqn:Hl.
  - rewrite (verified_bind s id l Hl).
    destruct (negative _); unfold throw, modify; congruence.
  - rewrite unverified_bind by done. congruence.
Qed.
End ScheduleAction.

Lemma scheduleAction_failures_witness :
  scheduleAction (λ _, Some 1000) 2000 7 "t" On init = (Throw LightNotFound, init) ∧
  scheduleAction (λ _, Some 1000) 2000 1 "t" On init
    = (Throw ScheduledTimeInPast, init).
Proof.
  split.
  - destruct (scheduleAction_failures (λ _, Some 1000) init 2000 7 "t" On)
      as [H _]. by apply H.
  - destruct (scheduleAction_failures (λ _, Some 1000) init 2000 1 "t" On)
      as [_ H]. apply (H ltac:(by eexists) 1000); [done|lia].
Defined.

(** ** Group control *)

Lemma forEach_app {A} (l1 l2 : list A) (f : A → M unit) (s : State) :
  forEach (l1 ++ l2) f s
  = match forEach l1 f s with
    | (Ok _, s') => forEach l2 f s'
    | (Throw e, s') => (Throw e, s')
    end.
Proof.
  revert s. induction l1 as [|x l1 IH]; intros s; simpl; [done|].
  unfold bind. destruct (f x s) as [[[]|e] s']; [apply IH|done].
Qed.

Lemma lookup_switched (v : OnOff) (ids : list Z) (m : gmap Z Light) (j : Z) :
  switched v ids m !! j
  = if decide (j ∈ ids) then with_status v <$> m !! j else m !! j.
Proof.
  revert m. induction ids as [|id ids IH]; intros m.
  - rewrite decide_False; [done|]. by intros H%elem_of_nil.
  - change (switched v (id :: ids) m)
      with (switched v ids (alter (with_status v) id m)).
    rewrite IH. destruct (decide (j = id)) as [->|Hne].
    + rewrite lookup_alter_eq.
      rewrite (decide_True (P := id ∈ id :: ids)) by (apply elem_of_cons; by left).
      case_decide; [|done]. by destruct (m !! id).
    + rewrite lookup_alter_ne by done.
      case_decide as Hin.
      * rewrite decide_True; [done|]. apply elem_of_cons. by right.
      * rewrite decide_False; [done|]. rewrite elem_of_cons. tauto.
Qed.

Lemma switched_toggled (v : OnOff) (ids : list Z) (s : State) :
  toggled v ids s (set_lights (switched v ids) s).
Proof.
  assert (∀ j, j ∈ ids →
               switched v ids (lights s) !! j
               = (λ l, mkLight (light_id l) v (brightness l) (color l))
                   <$> lights s !! j) as Hset.
  { intros j Hj. rewrite lookup_switched. by rewrite decide_True. }
  split; [done|]. split.
  - intros j l' Hj Hl'. simpl in Hl'. rewrite (Hset j Hj) in Hl'.
    destruct (lights s !! j) as [l|]; [|done].
    simpl in Hl'. by injection Hl' as <-.
  - repeat split; simpl; try done.
    intros j Hj. rewrite lookup_switched. by rewrite decide_False.
Qed.

(** After a group action every member that was a light is a light with
    the new status. *)
Lemma toggled_members_status (v : OnOff) (ids : list Z) (s s' : State) :
  toggled v ids s s' → all_known s ids →
  ∀ j, j ∈ ids → ∃ l', lights s' !! j = Some l' ∧ status l' = v.
Proof.
  intros (Hset & _) Hall j Hj. destruct (Hall j Hj) as [l Hl].
  exists (mkLight (light_id l) v (brightness l) (color l)).
  split; [|done]. by rewrite (Hset j Hj), Hl.
Qed.

Lemma forEach_switch_ok (s : State) (v : OnOff) (ids : list Z) :
  all_known s ids →
  forEach ids (switch v) s = (Ok tt, set_lights (switched v ids) s).
Proof.
  revert s. induction ids as [|id ids IH]; intros s Hall.
  - by destruct s.
  - destruct (Hall id) as [l Hl]; [apply elem_of_cons; by left|].
    simpl. unfold bind. rewrite (switch_found s v id l Hl).
    rewrite IH; [done|].
    intros j Hj. simpl. apply lookup_alter_is_Some, Hall, elem_of_cons.
    by right.
Qed.

Lemma forEach_switch_abort (s : State) (v : OnOff) (pre post : list Z) (m : Z) :
  all_known s pre → lights s !! m = None →
  forEach (pre ++ m :: post) (switch v) s
  = (Throw LightNotFound, set_lights (switched v pre) s).
Proof.
  intros Hpre Hm. rewrite forEach_app, (forEach_switch_ok s v pre Hpre).
  simpl. unfold bind. rewrite switch_missing; [done|].
  simpl. rewrite lookup_switched. case_decide; by rewrite Hm.
Qed.

(** C3. [controlGroup] throws the group error, of kind [NotFound], when the
    group does not exist, and changes nothing. Otherwise it runs [turnOn]
    or [turnOff] over the member list from first to last: when every
    member is a light, it succeeds and every member is a light whose
    status is [action], nothing else having changed; when [m] is the first
    member that is not a light, the call throws the light error, of kind
    [NotFound], and every member before [m] is a light whose status is
    [action]: nothing is rolled back, [m] is still missing, and nothing
    after [m] is touched. *)
Theorem controlGroup_fail_fast (s : State) (groupId : Z) (action : OnOff) :
  (groups s !! groupId = None →
     controlGroup groupId action s = (Throw GroupNotFound, s) ∧
     kind GroupNotFound = NotFound) ∧
  (∀ g, groups s !! groupId = Some g →
     (all_known s (lightIds g) →
        ∃ s', controlGroup groupId action s = (Ok tt, s') ∧
              (∀ j, j ∈ lightIds g →
                    ∃ l', lights s' !! j = Some l' ∧ status l' = action) ∧
              toggled action (lightIds g) s s') ∧
     (∀ pre m post,
        lightIds g = pre ++ m :: post → all_known s pre → lights s !! m = None →
        ∃ s', controlGroup groupId action s = (Throw LightNotFound, s') ∧
              kind LightNotFound = NotFound ∧
              (∀ j, j ∈ pre →
                    ∃ l', lights s' !! j = Some l' ∧ status l' = action) ∧
              lights s' !! m = None ∧
              toggled action pre s s')).
Proof.
  split.
  - intros H. unfold controlGroup, bind, get. simpl. by rewrite H.
  - intros g Hg.
    assert (controlGroup groupId action s = forEach (lightIds g) (switch action) s)
      as Hrun.
    { unfold controlGroup, bind, get. simpl. by rewrite Hg. }
    rewrite Hrun. split.
    + intros Hall. eexists. split; [by apply forEach_switch_ok|].
      split; [|apply switched_toggled].
      apply (toggled_members_status action (lightIds g) s);
        [apply switched_toggled|done].
    + intros pre m post -> Hpre Hm. eexists.
      split; [by apply forEach_switch_abort|]. split; [done|].
      split; [|split; [|apply switched_toggled]].
      * apply (toggled_members_status action pre s);
          [apply switched_toggled|done].
      * simpl. rewrite lookup_switched. case_decide; by rewrite Hm.
Qed.

Lemma controlGroup_fail_fast_witness :
  controlGroup 5 On init = (Throw GroupNotFound, init) ∧
  (∃ s', controlGroup 1 On (group_added "G" [1; 2] init) = (Ok tt, s') ∧
         lights s' !! 1 = Some (mkLight 1 On 0 white) ∧
         lights s' !! 2 = Some (mkLight 2 On 0 white)) ∧
  (∃ s', controlGroup 1 On dangling_member_state = (Throw LightNotFound, s') ∧
         kind LightNotFound = NotFound ∧
         lights s' !! 1 = Some (mkLight 1 On 0 white) ∧
         lights s' !! 9 = None ∧
         lights s' !! 2 = Some (mkLight 2 Off 0 white)).
Proof.
  split; [|split].
  - destruct (controlGroup_fail_fast init 5 On) as [H _]. by apply H.
  - destruct (controlGroup_fail_fast (group_added "G" [1; 2] init) 1 On)
      as [_ H].
    destruct (H (mkGroup 1 "G" [1; 2]) eq_refl) as [H1 _].
    destruct H1 as (s' & Hrun & _ & Hset & _).
    { intros id Hid. simpl in Hid.
      apply elem_of_cons in Hid as [-> | Hid]; [by eexists|].
      apply elem_of_cons in Hid as [-> | Hid]; [by eexists|].
      by apply elem_of_nil in Hid. }
    exists s'. split; [exact Hrun|]. split.
    + rewrite (Hset 1); [reflexivity|]. apply elem_of_cons. by left.
    + rewrite (Hset 2); [reflexivity|].
      apply elem_of_cons. right. apply elem_of_cons. by left.
  - destruct (controlGroup_fail_fast dangling_member_state 1 On) as [_ H].
    destruct (H (mkGroup 1 "G" [1; 9; 2]) eq_refl) as [_ H2].
    destruct (H2 [1] 9 [2]) as (s' & Hrun & Hkind & _ & Hmissing & Htog);
      [done| |done|].
    { intros id Hid.
      apply elem_of_cons in Hid as [-> | Hid]; [by eexists|].
      by apply elem_of_nil in Hid. }
    destruct Htog as (Hset & _ & Hrest & _).
    exists s'. split; [exact Hrun|]. split; [exact Hkind|]. split; [|split].
    + rewrite (Hset 1); [reflexivity|]. apply elem_of_cons. by left.
    + exact Hmissing.
    + rewrite (Hrest 2); [reflexivity|].
      intros Hin. apply list_elem_of_singleton in Hin. discriminate Hin.
Defined.

(** ** The effect of one call on the state *)

#[global] Instance same_shape_refl : Reflexive same_shape.
Proof. intros s. by repeat split. Qed.

#[global] Instance same_shape_trans : Transitive same_shape.
Proof.
  intros s1 s2 s3 (Hg & Hc & Hd & Hl) (Hg' & Hc' & Hd' & Hl').
  repeat split; try congruence; intros H.
  - by apply Hl, Hl'.
  - by apply Hl', Hl.
Qed.

Lemma same_shape_alter (f : Light → Light) (id : Z) (s : State) :
  same_shape s (set_lights (alter f id) s).
Proof.
  repeat split; simpl; intros H.
  - by apply lookup_alter_is_Some in H.
  - by apply lookup_alter_is_Some.
Qed.

Lemma same_shape_timers (f : list Timer → list Timer) (s : State) :
  same_shape s (set_timers f s).
Proof. by repeat split. Qed.

Lemma same_shape_verify (id : Z) (k : M unit) (s : State) :
  (∀ s0, same_shape s0 (k s0).2) →
  same_shape s ((verifyLightExists id >>> k) s).2.
Proof.
  intros Hk. destruct (lights s !! id) as [l|] eqn:Hl.
  - rewrite (verified_bind s id l Hl). apply Hk.
  - by rewrite unverified_bind.
Qed.

Lemma same_shape_switch (v : OnOff) (id : Z) (s : State) :
  same_shape s (switch v id s).2.
Proof.
  destruct v; apply same_shape_verify; intros s0; apply same_shape_alter.
Qed.

Lemma forEach_preserves {A} (R : relation State) `{!Reflexive R, !Transitive R}
    (l : list A) (f : A → M unit) :
  (∀ x s, R s (f x s).2) → ∀ s, R s (forEach l f s).2.
Proof.
  intros Hf. induction l as [|x l IH]; intros s; simpl; [done|].
  unfold bind. pose proof (Hf x s) as Hx.
  destruct (f x s) as [[[]|e] s']; simpl in *; [|done].
  by etrans.
Qed.

Lemma returning_state {A} (v : A → Value) (m : M A) (s : State) :
  (returning v m s).2 = (m s).2.
Proof. unfold returning, bind, ret. by destruct (m s) as [[a|e] s']. Qed.

Section Effects.
Variable parseDate : string → option Z.
Variable P : list Z → Prop.

(** Every call acts on the state as [effect] says. *)
Lemma exec_effect (op : Op) (s : State) :
  creates_only P op → effect P s (exec parseDate op s).2.
Proof.
  intros HP. destruct op; cbn [exec]; rewrite returning_state.
  - (* getAllLights *) by apply effect_shape.
  - (* getLight *) by apply effect_shape.
  - (* turnOn *) apply effect_shape, (same_shape_switch On).
  - (* turnOff *) apply effect_shape, (same_shape_switch Off).
  - (* setBrightness *)
    apply effect_shape, same_shape_verify. intros s0.
    destruct (_ || _); [done|apply same_shape_alter].
  - (* setColor *)
    apply effect_shape, same_shape_verify. intros s0. apply same_shape_alter.
  - (* createGroup *)
    destruct (decide (Forall (λ id, is_Some (lights s !! id)) ids)) as [H|H].
    + assert (all_known s ids) as Hall.
      { intros id Hid. by apply (proj1 (Forall_forall _ _) H). }
      rewrite (createGroup_known s nm ids Hall). by apply effect_group_added.
    + apply not_Forall_Exists in H; [|apply _].
      unfold createGroup, bind at 1. rewrite forEach_verify_fail.
      * by apply effect_shape.
      * eapply Exists_impl; [done|]. simpl. intros id Hid.
        by apply eq_None_not_Some.
  - (* controlGroup *)
    apply effect_shape. unfold controlGroup, bind, get. simpl.
    destruct (groups s !! groupId) as [g|]; [|done].
    apply (forEach_preserves same_shape). apply same_shape_switch.
  - (* scheduleAction *)
    apply effect_shape, same_shape_verify. intros s0. cbv zeta.
    destruct (negative _); [done|apply same_shape_timers].
  - (* addLightToGroup *)
    destruct (lights s !! lightId) as [l|] eqn:Hl.
    + unfold addLightToGroup. rewrite (verified_bind s lightId l Hl).
      unfold bind, get. simpl.
      destruct (groups s !! groupId) as [g|] eqn:Hg; [|by apply effect_shape].
      case_bool_decide; [by apply effect_shape|].
      by apply (effect_member_added P s groupId lightId g).
    + unfold addLightToGroup. rewrite unverified_bind by done.
      by apply effect_shape.
  - (* removeLightFromGroup *)
    unfold removeLightFromGroup, bind, get. simpl.
    destruct (groups s !! groupId); [|by apply effect_shape].
    apply effect_member_removed.
  - (* deleteLightFromGroup *)
    destruct (lights s !! lightId) as [l|] eqn:Hl.
    + rewrite (deleteLightFromGroup_found s lightId l Hl).
      apply effect_light_deleted.
    + unfold deleteLightFromGroup. rewrite unverified_bind by done.
      by apply effect_shape.
  - (* deleteGroup *)
    unfold deleteGroup, bind, get. simpl.
    destruct (groups s !! groupId); [|by apply effect_shape].
    apply effect_group_deleted.
  - (* addLight *) apply effect_light_added.
  - (* saveState *) by apply effect_shape.
  - (* loadState *) by apply effect_shape.
  - (* a timer fires *)
    apply effect_shape. unfold fireTimer, bind, get. simpl.
    destruct (timers s !! i) as [t|]; [|done]. simpl.
    etrans; [apply (same_shape_timers (delete i))|apply same_shape_switch].
Qed.
End Effects.

(** ** Invariants of the reachable states *)

Lemma lookup_alter_lightIds (f : list Z → list Z) (groupId gid : Z)
    (m : gmap Z LightGroup) (g' : LightGroup) :
  alter (with_lightIds f) groupId m !! gid = Some g' →
  ∃ g, m !! gid = Some g ∧
       (lightIds g' = lightIds g ∨ (gid = groupId ∧ lightIds g' = f (lightIds g))).
Proof.
  destruct (decide (groupId = gid)) as [->|Hne].
  - rewrite lookup_alter_eq. destruct (m !! gid) as [g|]; [|done].
    intros [= <-]. exists g. split; [done|]. by right.
  - rewrite lookup_alter_ne by done. intros H. exists g'. split; [done|]. by left.
Qed.

Lemma effect_members_exist (P : list Z → Prop) (s s' : State) :
  effect P s s' → members_exist s → members_exist s'.
Proof.
  intros [s0 (Hg & _ & _ & Hl)|nm ids _ Hall|groupId lightId g0 Hlid Hg0 _
          |groupId lightId|lightId|groupId|] Hinv gid g id; simpl.
  - rewrite Hg, Hl. apply Hinv.
  - destruct (decide (groupIdCounter s = gid)) as [->|Hne].
    + rewrite lookup_insert_eq. intros [= <-]. apply Hall.
    + rewrite lookup_insert_ne by done. apply Hinv.
  - intros (g1 & Hg1 & [Heq|[-> Heq]])%lookup_alter_lightIds; rewrite Heq.
    + by apply (Hinv gid g1).
    + intros [Hin|Hin%list_elem_of_singleton]%elem_of_app.
      * by apply (Hinv groupId g1).
      * by subst.
  - intros (g1 & Hg1 & [Heq|[-> Heq]])%lookup_alter_lightIds; rewrite Heq.
    + by apply (Hinv gid g1).
    + intros [_ Hin]%in_without. by apply (Hinv groupId g1).
  - rewrite lookup_fmap. destruct (groups s !! gid) as [g1|] eqn:Hg1; [|done].
    simpl. intros [= <-]. simpl. intros [Hne Hin]%in_without.
    rewrite lookup_delete_ne by done. by apply (Hinv gid g1).
  - intros [_ Hg]%lookup_delete_Some Hin. by apply (Hinv gid g).
  - intros Hg Hin. apply lookup_insert_is_Some'. right. by apply (Hinv gid g).
Qed.

Lemma effect_members_distinct (s s' : State) :
  effect (λ ids, NoDup ids) s s' → members_distinct s → members_distinct s'.
Proof.
  intros [s0 (Hg & _)|nm ids Hids _|groupId lightId g0 _ Hg0 Hnew
          |groupId lightId|lightId|groupId|] Hinv gid g; simpl.
  - rewrite Hg. apply Hinv.
  - destruct (decide (groupIdCounter s = gid)) as [->|Hne].
    + rewrite lookup_insert_eq. by intros [= <-].
    + rewrite lookup_insert_ne by done. apply Hinv.
  - intros (g1 & Hg1 & [Heq|[-> Heq]])%lookup_alter_lightIds; rewrite Heq.
    + by apply (Hinv gid g1).
    + assert (g1 = g0) as -> by congruence.
      apply NoDup_app. split; [by apply (Hinv groupId g0)|].
      split; [|apply NoDup_singleton].
      intros x Hx Hx'%list_elem_of_singleton. by subst.
  - intros (g1 & Hg1 & [Heq|[-> Heq]])%lookup_alter_lightIds; rewrite Heq.
    + by apply (Hinv gid g1).
    + apply NoDup_filter. by apply (Hinv groupId g1).
  - rewrite lookup_fmap. destruct (groups s !! gid) as [g1|] eqn:Hg1; [|done].
    simpl. intros [= <-]. simpl. apply NoDup_filter. by apply (Hinv gid g1).
  - intros [_ Hg]%lookup_delete_Some. by apply (Hinv gid g).
  - apply Hinv.
Qed.

Lemma effect_lightIdCounter (P : list Z → Prop) (s s' : State) :
  effect P s s' → lightIdCounter s ≤ lightIdCounter s'.
Proof.
  intros [s0 (_ & _ & Hc & _)| | | | | |]; simpl; lia.
Qed.

Lemma effect_lights_below_counter (P : list Z → Prop) (s s' : State) :
  effect P s s' → lights_below_counter s → lights_below_counter s'.
Proof.
  intros [s0 (_ & _ & Hc & Hl)|nm ids _ _|groupId lightId g0 _ _ _
          |groupId lightId|lightId|groupId|] Hinv id l; simpl;
    try apply Hinv.
  - rewrite Hc. intros Hid.
    destruct (proj1 (Hl id) (mk_is_Some _ _ Hid)) as [l0 Hl0].
    by apply (Hinv id l0).
  - intros [_ Hid]%lookup_delete_Some. by apply (Hinv id l).
  - intros [[<- _]|[_ Hid]]%lookup_insert_Some; [lia|].
    pose proof (Hinv id l Hid). lia.
Qed.

Lemma effect_groups_below_counter (P : list Z → Prop) (s s' : State) :
  effect P s s' → groups_below_counter s → groups_below_counter s'.
Proof.
  intros [s0 (Hg & Hc & _)|nm ids _ _|groupId lightId g0 _ _ _
          |groupId lightId|lightId|groupId|] Hinv gid g; simpl.
  - rewrite Hg, Hc. apply Hinv.
  - intros [[<- _]|[_ Hgid]]%lookup_insert_Some; [lia|].
    pose proof (Hinv gid g Hgid). lia.
  - intros (g1 & Hg1 & _)%lookup_alter_lightIds. by apply (Hinv gid g1).
  - intros (g1 & Hg1 & _)%lookup_alter_lightIds. by apply (Hinv gid g1).
  - rewrite lookup_fmap. destruct (groups s !! gid) as [g1|] eqn:Hg1; [|done].
    intros _. by apply (Hinv gid g1).
  - intros [_ Hg]%lookup_delete_Some. by apply (Hinv gid g).
  - apply Hinv.
Qed.

Lemma init_members_exist : members_exist init.
Proof. intros gid g id H. simpl in H. by rewrite lookup_empty in H. Qed.

Lemma init_members_distinct : members_distinct init.
Proof. intros gid g H. simpl in H. by rewrite lookup_empty in H. Qed.

Lemma init_groups_below_counter : groups_below_counter init.
Proof. intros gid g H. simpl in H. by rewrite lookup_empty in H. Qed.

Lemma init_lights_below_counter : lights_below_counter init.
Proof.
  intros id l. unfold init. simpl.
  intros [[<- _]|[_ [[<- _]|[_ H]]%lookup_insert_Some]]%lookup_insert_Some;
    [lia|lia|by rewrite lookup_empty in H].
Qed.

Section Reachable.
Variable parseDate : string → option Z.

Lemma run_cons (op : Op) (ops : list Op) (s : State) :
  run parseDate (op :: ops) s
  = ((op, (exec parseDate op s).1)
       :: (run parseDate ops (exec parseDate op s).2).1,
     (run parseDate ops (exec parseDate op s).2).2).
Proof.
  cbn [run]. destruct (exec parseDate op s) as [r s']. cbn [fst snd].
  by destruct (run parseDate ops s') as [rs s''].
Qed.

(** A property every call preserves holds at the end of every run. *)
Lemma run_preserves (P : list Z → Prop) (Inv : State → Prop) :
  (∀ s s', effect P s s' → Inv s → Inv s') →
  ∀ ops s, Forall (creates_only P) ops → Inv s → Inv (run parseDate ops s).2.
Proof.
  intros Hstep ops. induction ops as [|op ops IH]; intros s Hops Hs; [done|].
  rewrite run_cons. simpl. apply Forall_cons in Hops as [Hop Hops].
  apply IH; [done|]. eapply Hstep; [|done]. by apply exec_effect.
Qed.

Lemma creates_only_True (ops : list Op) : Forall (creates_only (λ _, True)) ops.
Proof. apply Forall_forall. intros op _. by destruct op. Qed.

(** Referential integrity is kept by every single call, from any state
    that has it: light deletion purges the id from the groups before it
    drops the light, and the calls that add members check them first. *)
Lemma exec_members_exist (op : Op) (s : State) :
  members_exist s → members_exist (exec parseDate op s).2.
Proof.
  apply (effect_members_exist (λ _, True)), exec_effect. by destruct op.
Qed.

(** C2. In every state reachable from the state the constructor builds,
    by any sequence of calls of the public methods (and of firing
    timers), each id in the member list of a group is the id of a light
    in the lights map. *)
Theorem reachable_members_exist (s : State) :
  reachable parseDate s → members_exist s.
Proof.
  intros [ops <-].
  apply (run_preserves (λ _, True) members_exist).
  - apply effect_members_exist.
  - apply creates_only_True.
  - apply init_members_exist.
Qed.

(** X29. Groups stay free of duplicates as long as [createGroup] is only
    handed member lists that are. *)
Lemma run_members_distinct (ops : list Op) :
  Forall (creates_only (λ ids, NoDup ids)) ops →
  members_distinct (run parseDate ops init).2.
Proof.
  intros Hops. apply (run_preserves (λ ids, NoDup ids) members_distinct).
  - apply effect_members_distinct.
  - done.
  - apply init_members_distinct.
Qed.

(** C5 at its failing input: after [createGroup("G", [1, 1])] on the
    state the constructor builds, the call has succeeded, the state is
    reachable, and group 1 lists light 1 twice. *)
Theorem createGroup_stores_duplicates :
  createGroup "G" [1; 1] init = (Ok 1, group_added "G" [1; 1] init) ∧
  reachable parseDate (group_added "G" [1; 1] init) ∧
  groups (group_added "G" [1; 1] init) !! 1 = Some (mkGroup 1 "G" [1; 1]) ∧
  ¬ members_distinct (group_added "G" [1; 1] init).
Proof.
  split; [done|]. split; [by exists [CreateGroup "G" [1; 1]]|].
  split; [done|]. intros H.
  specialize (H 1 (mkGroup 1 "G" [1; 1]) eq_refl). simpl in H.
  apply NoDup_cons in H as [H _]. apply H, elem_of_cons. by left.
Qed.
(** X28. In a reachable state the group counter names no group yet, so the id
    [createGroup] returns is the id of no earlier group. *)
Lemma reachable_group_id_unused (s : State) :
  reachable parseDate s → groups s !! groupIdCounter s = None.
Proof.
  intros [ops <-].
  assert (groups_below_counter (run parseDate ops init).2) as H.
  { apply (run_preserves (λ _, True) groups_below_counter).
    - apply effect_groups_below_counter.
    - apply creates_only_True.
    - apply init_groups_below_counter. }
  destruct (groups _ !! groupIdCounter _) as [g|] eqn:Hg; [|done].
  apply H in Hg. lia.
Qed.
End Reachable.

Lemma reachable_members_exist_witness :
  members_exist (group_added "G" [1; 2] init).
Proof.
  apply (reachable_members_exist (λ _, None)).
  by exists [CreateGroup "G" [1; 2]].
Defined.

(** ** Light ids *)

Lemma increasing_NoDup (l : list Z) : StronglySorted Z.lt l → NoDup l.
Proof.
  induction 1 as [|x l _ IH Hx]; [apply NoDup_nil_2|].
  apply NoDup_cons. split; [|done].
  intros Hin. apply (proj1 (Forall_forall _ _) Hx) in Hin. lia.
Qed.

Section LightIds.
Variable parseDate : string → option Z.

Lemma exec_lightIdCounter (op : Op) (s : State) :
  lightIdCounter s ≤ lightIdCounter (exec parseDate op s).2.
Proof.
  apply (effect_lightIdCounter (λ _, True)), exec_effect. by destruct op.
Qed.

(** From any state, the ids a run hands out start at the light counter
    and increase strictly; every [addLight] call hands out one. *)
Lemma run_allocated (ops : list Op) (s : State) :
  StronglySorted Z.lt (allocated (run parseDate ops s).1) ∧
  Forall (λ n, lightIdCounter s ≤ n) (allocated (run parseDate ops s).1) ∧
  length (allocated (run parseDate ops s).1) = addLight_calls ops.
Proof.
  revert s. induction ops as [|op ops IH]; intros s.
  - split; [constructor|]. by split.
  - rewrite run_cons. cbn [fst].
    destruct (IH (exec parseDate op s).2) as (Hsorted & Hfrom & Hlen).
    pose proof (exec_lightIdCounter op s) as Hmono.
    destruct op;
      try (cbn [allocated addLight_calls];
           split; [exact Hsorted|split; [|exact Hlen]];
           eapply Forall_impl; [exact Hfrom|];
           intros n Hn; cbv beta in Hn |- *; lia).
    change (exec parseDate AddLight s)
      with (Ok (VId (lightIdCounter s)), light_added s) in *.
    cbn [fst snd allocated addLight_calls] in *.
    assert (lightIdCounter (light_added s) = lightIdCounter s + 1) as Hnext
      by done.
    split; [|split].
    + constructor; [done|].
      eapply Forall_impl; [exact Hfrom|].
      intros n Hn; cbv beta in Hn |- *; lia.
    + constructor; [lia|].
      eapply Forall_impl; [exact Hfrom|].
      intros n Hn; cbv beta in Hn |- *; lia.
    + cbn [length]. by rewrite Hlen.
Qed.

Lemma reachable_lights_below_counter (s : State) :
  reachable parseDate s → lights_below_counter s.
Proof.
  intros [ops <-].
  apply (run_preserves parseDate (λ _, True) lights_below_counter).
  - apply effect_lights_below_counter.
  - apply creates_only_True.
  - apply init_lights_below_counter.
Qed.

(** C6. Over any sequence of calls starting from the state the
    constructor builds, every [addLight] call returns an id, and the ids
    returned, in call order, increase strictly, are pairwise distinct
    and are greater than the seeded ids 1 and 2. No id is handed out
    again: whatever light is, at some point of a run, in the lights map,
    every id handed out from that point on is greater than its id,
    whether or not the light is deleted in between. *)
Theorem addLight_ids_fresh (ops : list Op) :
  length (allocated (run parseDate ops init).1) = addLight_calls ops ∧
  StronglySorted Z.lt (allocated (run parseDate ops init).1) ∧
  NoDup (allocated (run parseDate ops init).1) ∧
  Forall (λ n, 2 < n) (allocated (run parseDate ops init).1) ∧
  ∀ later id,
    is_Some (lights (run parseDate ops init).2 !! id) →
    Forall (λ n, id < n)
           (allocated (run parseDate later (run parseDate ops init).2).1).
Proof.
  destruct (run_allocated ops init) as (Hsorted & Hfrom & Hlen).
  split; [done|]. split; [done|]. split; [by apply increasing_NoDup|].
  split.
  - eapply Forall_impl; [exact Hfrom|].
    intros n Hn; cbv beta in Hn |- *. change (lightIdCounter init) with 3 in Hn.
    lia.
  - intros later id [l Hl].
    assert (id < lightIdCounter (run parseDate ops init).2) as Hid.
    { apply (reachable_lights_below_counter _ ltac:(by exists ops) id l Hl). }
    destruct (run_allocated later (run parseDate ops init).2) as (_ & H & _).
    eapply Forall_impl; [exact H|].
    intros n Hn; cbv beta in Hn |- *; lia.
Qed.
End LightIds.

(** A run that allocates, deletes the new light and allocates again: the
    ids handed out are 3 and 4. *)
Example addLight_after_delete :
  allocated (run (λ _, None) [AddLight; DeleteLightFromGroup 3; AddLight] init).1
  = [3; 4].
Proof. reflexivity. Qed.

Lemma addLight_ids_fresh_witness :
  Forall (λ n, 3 < n)
         (allocated (run (λ _, None) [DeleteLightFromGroup 3; AddLight]
                         (run (λ _, None) [AddLight] init).2).1).
Proof.
  destruct (addLight_ids_fresh (λ _, None) [AddLight]) as (_ & _ & _ & _ & H).
  apply H. by eexists.
Defined.

(** * Further properties of the service *)

(** ** Light fields *)

Lemma alter_only_light_changed (f : Light → Light) (id : Z) (l : Light) (s : State) :
  lights s !! id = Some l →
  only_light_changed id (f l) s (set_lights (alter f id) s).
Proof.
  intros H. repeat split; simpl; try done.
  - by rewrite lookup_alter_eq, H.
  - intros j Hj. by rewrite lookup_alter_ne.
Qed.

(** X1. [setColor] on an existing light succeeds and replaces the color of
    that light only: its id, status and brightness, the other lights, the
    groups, the counters and the timers are kept. On a missing light it
    throws "Light not found" and changes nothing. *)
Theorem setColor_spec (s : State) (id : Z) (c : LightColor) :
  (∀ l, lights s !! id = Some l →
     (setColor id c s).1 = Ok tt ∧
     only_light_changed id (mkLight (light_id l) (status l) (brightness l) c)
                        s (setColor id c s).2) ∧
  (lights s !! id = None → setColor id c s = (Throw LightNotFound, s)).
Proof.
  split.
  - intros l Hl. unfold setColor. rewrite (verified_bind s id l Hl).
    split; [done|]. apply (alter_only_light_changed (with_color c) id l s Hl).
  - intros H. unfold setColor. by rewrite unverified_bind.
Qed.

Lemma setColor_spec_witness :
  ((setColor 2 blue init).1 = Ok tt ∧
   only_light_changed 2 (mkLight 2 Off 0 blue) init (setColor 2 blue init).2) ∧
  setColor 5 blue init = (Throw LightNotFound, init).
Proof.
  split.
  - destruct (setColor_spec init 2 blue) as [H _].
    apply (H (newLight 2)). reflexivity.
  - destruct (setColor_spec init 5 blue) as [_ H]. by apply H.
Defined.

(** X2. [setBrightness] with a value in range on an existing light replaces
    the brightness of that light only: its id, status and color, the
    other lights, the groups, the counters and the timers are kept. *)
Theorem setBrightness_frame (s : State) (id b : Z) (l : Light) :
  lights s !! id = Some l → 0 ≤ b ≤ 100 →
  (setBrightness id b s).1 = Ok tt ∧
  only_light_changed id (mkLight (light_id l) (status l) b (color l))
                     s (setBrightness id b s).2.
Proof.
  intros Hl Hb. unfold setBrightness. rewrite (verified_bind s id l Hl).
  replace ((b <? 0) || (b >? 100)) with false by lia.
  split; [done|]. apply (alter_only_light_changed (with_brightness b) id l s Hl).
Qed.

Lemma setBrightness_frame_witness :
  (setBrightness 1 40 init).1 = Ok tt ∧
  only_light_changed 1 (mkLight 1 Off 40 white) init (setBrightness 1 40 init).2.
Proof. apply (setBrightness_frame init 1 40 (newLight 1)); [reflexivity|lia]. Defined.

(** What a successful or failed single-light method does to the state:
    it applies [f] to light [id] when the light exists, and nothing
    otherwise. *)
Lemma verify_alter_state (f : Light → Light) (id : Z) (s : State) :
  ((verifyLightExists id >>> modify (set_lights (alter f id))) s).2
  = set_lights (alter f id) s.
Proof.
  destruct (lights s !! id) as [l|] eqn:Hl.
  - by rewrite (verified_bind s id l Hl).
  - rewrite unverified_bind by done. destruct s as [ls gs gc lc ts].
    simpl in *. unfold set_lights. simpl. f_equal.
    apply map_eq. intros j. destruct (decide (id = j)) as [<-|Hne].
    + by rewrite lookup_alter_eq, Hl.
    + by rewrite lookup_alter_ne.
Qed.

Lemma set_lights_set_lights (f g : gmap Z Light → gmap Z Light) (s : State) :
  set_lights f (set_lights g s) = set_lights (f ∘ g) s.
Proof. done. Qed.

Lemma switch_after_switch (v w : OnOff) (id : Z) (s : State) :
  switch w id (switch v id s).2 = switch w id s.
Proof.
  destruct (lights s !! id) as [l|] eqn:Hl.
  - rewrite (switch_found s v id l Hl). simpl.
    rewrite (switch_found _ w id (with_status v l)),
            (switch_found s w id l Hl).
    + f_equal. unfold set_lights. simpl. f_equal.
      rewrite alter_alter_eq. by apply alter_ext.
    + simpl. by rewrite lookup_alter_eq, Hl.
  - by rewrite (switch_missing s v id Hl).
Qed.

(** X3. The last power command wins: [turnOn] and [turnOff] on the same light,
    in any order and any number of times, give the result and the state
    of the last call alone. In particular both are idempotent. This holds
    in every state, also when the light is missing (both calls throw). *)
Theorem power_last_call_wins (s : State) (id : Z) :
  turnOn id (turnOn id s).2 = turnOn id s ∧
  turnOff id (turnOn id s).2 = turnOff id s ∧
  turnOn id (turnOff id s).2 = turnOn id s ∧
  turnOff id (turnOff id s).2 = turnOff id s.
Proof.
  repeat split.
  - apply (switch_after_switch On On).
  - apply (switch_after_switch On Off).
  - apply (switch_after_switch Off On).
  - apply (switch_after_switch Off Off).
Qed.

Lemma switch_brightness_commute (s : State) (i j b : Z) (v : OnOff) :
  (setBrightness j b (switch v i s).2).2 = (switch v i (setBrightness j b s).2).2.
Proof.
  assert (∀ s0, (setBrightness j b s0).2
                = if (b <? 0) || (b >? 100) then s0
                  else set_lights (alter (with_brightness b) j) s0) as Hb.
  { intros s0. unfold setBrightness. destruct ((b <? 0) || (b >? 100)).
    - destruct (lights s0 !! j) as [l|] eqn:Hl.
      + by rewrite (verified_bind s0 j l Hl).
      + by rewrite unverified_bind.
    - apply verify_alter_state. }
  assert (∀ s0, (switch v i s0).2 = set_lights (alter (with_status v) i) s0)
    as Hv.
  { intros s0. destruct v; apply verify_alter_state. }
  rewrite !Hb, !Hv. destruct ((b <? 0) || (b >? 100)); [done|].
  rewrite !set_lights_set_lights. unfold set_lights. simpl. f_equal.
  destruct (decide (j = i)) as [->|Hne].
  - rewrite !alter_alter_eq. by apply alter_ext.
  - by apply alter_alter_ne.
Qed.

(** X4. Power and brightness are independent: [turnOn] (or [turnOff]) on one
    light and [setBrightness] on a light, the same or another, lead to the
    same state in either order, whether or not each call succeeds. *)
Theorem power_brightness_commute (s : State) (i j b : Z) :
  (setBrightness j b (turnOn i s).2).2 = (turnOn i (setBrightness j b s).2).2 ∧
  (setBrightness j b (turnOff i s).2).2 = (turnOff i (setBrightness j b s).2).2.
Proof.
  split.
  - apply (switch_brightness_commute s i j b On).
  - apply (switch_brightness_commute s i j b Off).
Qed.

(** ** Group membership *)

Lemma alter_only_group_changed (f : LightGroup → LightGroup) (groupId : Z)
    (g : LightGroup) (s : State) :
  groups s !! groupId = Some g →
  only_group_changed groupId (f g) s (set_groups (alter f groupId) s).
Proof.
  intros H. repeat split; simpl; try done.
  - by rewrite lookup_alter_eq, H.
  - intros j Hj. by rewrite lookup_alter_ne.
Qed.

Lemma removeLightFromGroup_found (s : State) (groupId lightId : Z) (g : LightGroup) :
  groups s !! groupId = Some g →
  removeLightFromGroup groupId lightId s
  = (Ok tt, set_groups (alter (with_lightIds (without lightId)) groupId) s).
Proof. intros H. unfold removeLightFromGroup, bind, get. simpl. by rewrite H. Qed.

Lemma without_absent (lightId : Z) (l : list Z) :
  lightId ∉ l → without lightId l = l.
Proof.
  intros H. unfold without. induction l as [|x l IH]; [done|].
  apply not_elem_of_cons in H as [Hx Hl].
  rewrite filter_cons_True by done. by rewrite IH.
Qed.

Lemma set_groups_alter_same (f : LightGroup → LightGroup) (groupId : Z)
    (g : LightGroup) (s : State) :
  groups s !! groupId = Some g → f g = g → set_groups (alter f groupId) s = s.
Proof.
  intros Hg Hf. destruct s as [ls gs gc lc ts]. unfold set_groups. simpl in *.
  f_equal. apply alter_id. intros g0 Hg0. congruence.
Qed.

(** X5. [removeLightFromGroup] looks at the group only. On a missing group it
    throws "Group not found" and changes nothing. On an existing group it
    succeeds, whether or not [lightId] is a light of the store or a member
    of the group: the member list loses every occurrence of [lightId] and
    keeps the other members in order; the group's id and name, the other
    groups and all lights (the removed one included) are kept. *)
Theorem removeLightFromGroup_spec (s : State) (groupId lightId : Z) :
  (groups s !! groupId = None →
     removeLightFromGroup groupId lightId s = (Throw GroupNotFound, s)) ∧
  (∀ g, groups s !! groupId = Some g →
     (removeLightFromGroup groupId lightId s).1 = Ok tt ∧
     only_group_changed groupId
       (mkGroup (group_id g) (name g) (without lightId (lightIds g)))
       s (removeLightFromGroup groupId lightId s).2 ∧
     (lightId ∉ without lightId (lightIds g)) ∧
     (∀ id, id ≠ lightId → id ∈ lightIds g → id ∈ without lightId (lightIds g)) ∧
     sublist (without lightId (lightIds g)) (lightIds g)).
Proof.
  split.
  - intros H. unfold removeLightFromGroup, bind, get. simpl. by rewrite H.
  - intros g Hg. rewrite (removeLightFromGroup_found s groupId lightId g Hg).
    split; [done|]. split; [|split; [|split]].
    + apply (alter_only_group_changed
               (with_lightIds (without lightId)) groupId g s Hg).
    + apply not_in_without.
    + intros id Hne Hin. by apply in_without.
    + apply sublist_filter.
Qed.

Lemma removeLightFromGroup_spec_witness :
  removeLightFromGroup 4 1 init = (Throw GroupNotFound, init) ∧
  (removeLightFromGroup 1 1 (group_added "G" [1; 2; 1] init)).1 = Ok tt ∧
  only_group_changed 1 (mkGroup 1 "G" [2]) (group_added "G" [1; 2; 1] init)
    (removeLightFromGroup 1 1 (group_added "G" [1; 2; 1] init)).2.
Proof.
  split.
  - destruct (removeLightFromGroup_spec init 4 1) as [H _]. by apply H.
  - destruct (removeLightFromGroup_spec (group_added "G" [1; 2; 1] init) 1 1)
      as [_ H].
    destruct (H (mkGroup 1 "G" [1; 2; 1]) eq_refl) as (H1 & H2 & _).
    split; [exact H1|exact H2].
Defined.

(** X6. Removing what is not there is a successful no-op: when [lightId] is
    not a member of the existing group, [removeLightFromGroup] returns
    normally and the state is exactly what it was. Hence removing the
    same light twice gives the state of removing it once. *)
Theorem removeLightFromGroup_idempotent (s : State) (groupId lightId : Z)
    (g : LightGroup) :
  groups s !! groupId = Some g →
  (lightId ∉ lightIds g → removeLightFromGroup groupId lightId s = (Ok tt, s)) ∧
  removeLightFromGroup groupId lightId (removeLightFromGroup groupId lightId s).2
  = removeLightFromGroup groupId lightId s.
Proof.
  intros Hg.
  assert (∀ s0 g0, groups s0 !! groupId = Some g0 → lightId ∉ lightIds g0 →
                   removeLightFromGroup groupId lightId s0 = (Ok tt, s0)) as Hnoop.
  { intros s0 g0 Hg0 Hnot.
    rewrite (removeLightFromGroup_found s0 groupId lightId g0 Hg0). f_equal.
    apply (set_groups_alter_same _ groupId g0 s0 Hg0).
    destruct g0 as [i n l]. unfold with_lightIds. simpl in *.
    by rewrite without_absent. }
  split; [by apply (Hnoop s g)|].
  rewrite (removeLightFromGroup_found s groupId lightId g Hg). simpl.
  apply (Hnoop _ (with_lightIds (without lightId) g)).
  - simpl. by rewrite lookup_alter_eq, Hg.
  - simpl. apply not_in_without.
Qed.

Lemma removeLightFromGroup_idempotent_witness :
  (2 ∉ [1] → removeLightFromGroup 1 2 (group_added "G" [1] init)
             = (Ok tt, group_added "G" [1] init)) ∧
  removeLightFromGroup 1 2 (removeLightFromGroup 1 2 (group_added "G" [1] init)).2
  = removeLightFromGroup 1 2 (group_added "G" [1] init).
Proof.
  apply (removeLightFromGroup_idempotent (group_added "G" [1] init) 1 2
           (mkGroup 1 "G" [1])).
  reflexivity.
Defined.

(** X7. [addLightToGroup] checks the light before the group. A missing light
    gives "Light not found", also when the group is missing too; an
    existing light with a missing group gives "Group not found". In both
    cases nothing changes. *)
Theorem addLightToGroup_errors (s : State) (groupId lightId : Z) :
  (lights s !! lightId = None →
     addLightToGroup groupId lightId s = (Throw LightNotFound, s)) ∧
  (is_Some (lights s !! lightId) → groups s !! groupId = None →
     addLightToGroup groupId lightId s = (Throw GroupNotFound, s)).
Proof.
  split.
  - intros H. unfold addLightToGroup. by rewrite unverified_bind.
  - intros [l Hl] Hg. unfold addLightToGroup.
    rewrite (verified_bind s lightId l Hl). unfold bind, get. simpl.
    by rewrite Hg.
Qed.

Lemma addLightToGroup_errors_witness :
  addLightToGroup 1 9 init = (Throw LightNotFound, init) ∧
  addLightToGroup 1 2 init = (Throw GroupNotFound, init).
Proof.
  split.
  - destruct (addLightToGroup_errors init 1 9) as [H _]. by apply H.
  - destruct (addLightToGroup_errors init 1 2) as [_ H].
    apply H; [by eexists|reflexivity].
Defined.

(** X8. [addLightToGroup] on an existing group and light touches the member
    list of that group only: the group's id and name, the other groups,
    every light, the counters and the timers are kept. *)
Theorem addLightToGroup_frame (s : State) (groupId lightId : Z) (g : LightGroup) :
  is_Some (lights s !! lightId) → groups s !! groupId = Some g →
  only_group_changed groupId
    (mkGroup (group_id g) (name g) (member_added lightId (lightIds g)))
    s (addLightToGroup groupId lightId s).2.
Proof.
  intros [l Hl] Hg.
  rewrite (addLightToGroup_found s groupId lightId l g Hl Hg).
  unfold member_added. case_bool_decide; simpl.
  - repeat split; try done. rewrite Hg. by destruct g.
  - apply (alter_only_group_changed
             (with_lightIds (λ l, l ++ [lightId])) groupId g s Hg).
Qed.

Lemma addLightToGroup_frame_witness :
  only_group_changed 1 (mkGroup 1 "G" [1; 2]) (group_added "G" [1] init)
    (addLightToGroup 1 2 (group_added "G" [1] init)).2.
Proof.
  apply (addLightToGroup_frame (group_added "G" [1] init) 1 2 (mkGroup 1 "G" [1])).
  - by eexists.
  - reflexivity.
Defined.

(** ** What each call does to the state *)

#[global] Instance lights_kept_refl : Reflexive lights_kept.
Proof.
  intros s. split; [done|]. intros id l Hl. exists l. split; [done|].
  split; [done|by left].
Qed.

#[global] Instance lights_kept_trans : Transitive lights_kept.
Proof.
  intros s1 s2 s3 [Hs12 H12] [Hs23 H23]. split; [by etrans|].
  intros id l3 Hl3.
  destruct (H23 id l3 Hl3) as (l2 & Hl2 & Hid23 & Hb23).
  destruct (H12 id l2 Hl2) as (l1 & Hl1 & Hid12 & Hb12).
  exists l1. split; [done|]. split; [congruence|].
  destruct Hb23 as [Hb23|Hb23]; [|by right].
  destruct Hb12 as [Hb12|Hb12]; [left; congruence|right; by rewrite Hb23].
Qed.

Lemma lights_kept_alter (f : Light → Light) (id : Z) (s : State) :
  (∀ l, light_kept l (f l)) → lights_kept s (set_lights (alter f id) s).
Proof.
  intros Hf. split; [apply same_shape_alter|].
  intros j l'. simpl. destruct (decide (id = j)) as [<-|Hne].
  - rewrite lookup_alter_eq. destruct (lights s !! id) as [l|]; [|done].
    intros [= <-]. exists l. split; [done|apply Hf].
  - rewrite lookup_alter_ne by done. intros Hl. exists l'.
    split; [done|]. split; [done|by left].
Qed.

Lemma lights_kept_timers (f : list Timer → list Timer) (s : State) :
  lights_kept s (set_timers f s).
Proof.
  split; [apply same_shape_timers|]. intros id l Hl. exists l.
  split; [done|]. split; [done|by left].
Qed.

Lemma lights_kept_verify (id : Z) (k : M unit) (s : State) :
  (∀ s0, lights_kept s0 (k s0).2) →
  lights_kept s ((verifyLightExists id >>> k) s).2.
Proof.
  intros Hk. destruct (lights s !! id) as [l|] eqn:Hl.
  - rewrite (verified_bind s id l Hl). apply Hk.
  - by rewrite unverified_bind.
Qed.

Lemma lights_kept_switch (v : OnOff) (id : Z) (s : State) :
  lights_kept s (switch v id s).2.
Proof.
  destruct v; apply lights_kept_verify; intros s0; apply lights_kept_alter;
    intros l; (split; [done|by left]).
Qed.

Section Outcomes.
Variable parseDate : string → option Z.

(** Every call ends in a state [outcome] allows. *)
Lemma exec_outcome (op : Op) (s : State) :
  outcome op s (exec parseDate op s).2.
Proof.
  destruct op; cbn [exec outcome]; rewrite returning_state.
  - (* getAllLights *) done.
  - (* getLight *) done.
  - (* turnOn *) apply (lights_kept_switch On).
  - (* turnOff *) apply (lights_kept_switch Off).
  - (* setBrightness *)
    apply lights_kept_verify. intros s0.
    destruct ((b <? 0) || (b >? 100)) eqn:Hb; [done|].
    apply lights_kept_alter. intros l. split; [done|]. right. simpl. lia.
  - (* setColor *)
    apply lights_kept_verify. intros s0. apply lights_kept_alter.
    intros l. split; [done|by left].
  - (* createGroup *)
    destruct (decide (Forall (λ id, is_Some (lights s !! id)) ids)) as [H|H].
    + assert (all_known s ids) as Hall.
      { intros id Hid. by apply (proj1 (Forall_forall _ _) H). }
      rewrite (createGroup_known s nm ids Hall). by right.
    + apply not_Forall_Exists in H; [|apply _].
      unfold createGroup, bind at 1. rewrite forEach_verify_fail; [by left|].
      eapply Exists_impl; [done|]. simpl. intros id Hid.
      by apply eq_None_not_Some.
  - (* controlGroup *)
    unfold controlGroup, bind, get. simpl.
    destruct (groups s !! groupId) as [g|]; [|done].
    apply (forEach_preserves lights_kept). apply lights_kept_switch.
  - (* scheduleAction *)
    apply lights_kept_verify. intros s0. cbv zeta.
    destruct (negative _); [done|apply lights_kept_timers].
  - (* addLightToGroup *)
    destruct (lights s !! lightId) as [l|] eqn:Hl.
    + unfold addLightToGroup. rewrite (verified_bind s lightId l Hl).
      unfold bind, get. simpl.
      destruct (groups s !! groupId) as [g|] eqn:Hg; [|by left].
      case_bool_decide; [by left|]. right. exists g.
      split; [by eexists|]. split; [done|]. by split.
    + unfold addLightToGroup. rewrite unverified_bind by done. by left.
  - (* removeLightFromGroup *)
    unfold removeLightFromGroup, bind, get. simpl.
    destruct (groups s !! groupId); [by right|by left].
  - (* deleteLightFromGroup *)
    destruct (lights s !! lightId) as [l|] eqn:Hl.
    + rewrite (deleteLightFromGroup_found s lightId l Hl). by right.
    + unfold deleteLightFromGroup. rewrite unverified_bind by done. by left.
  - (* deleteGroup *)
    unfold deleteGroup, bind, get. simpl.
    destruct (groups s !! groupId); [by right|by left].
  - (* addLight *) done.
  - (* saveState *) done.
  - (* loadState *) done.
  - (* a timer fires *)
    unfold fireTimer, bind, get. simpl.
    destruct (timers s !! i) as [t|]; [|done]. simpl.
    etrans; [apply (lights_kept_timers (delete i))|apply lights_kept_switch].
Qed.

(** A property every call keeps holds at the end of every run. *)
Lemma run_invariant (Inv : State → Prop) :
  (∀ op s, Inv s → Inv (exec parseDate op s).2) →
  ∀ ops s, Inv s → Inv (run parseDate ops s).2.
Proof.
  intros Hstep ops. induction ops as [|op ops IH]; intros s Hs; [done|].
  rewrite run_cons. simpl. by apply IH, Hstep.
Qed.
End Outcomes.

(** ** Well-formed records *)

Lemma outcome_lights_wf (op : Op) (s s' : State) :
  outcome op s s' → lights_wf s → lights_wf s'.
Proof.
  assert (∀ s0, lights_kept s s0 → lights_wf s → lights_wf s0) as Hkept.
  { intros s0 [_ H] Hwf id l' Hl'.
    destruct (H id l' Hl') as (l & Hl & Hid & Hb).
    destruct (Hwf id l Hl) as [Hid0 Hb0]. split; [congruence|].
    destruct Hb as [Hb|Hb]; [by rewrite Hb|done]. }
  destruct op; cbn [outcome]; try apply Hkept.
  - intros [->|[_ ->]]; [done|]. by intros Hwf.
  - intros [->|(g & _ & _ & _ & ->)]; [done|]. by intros Hwf.
  - intros [->| ->]; [done|]. by intros Hwf.
  - intros [->|[_ ->]]; [done|]. intros Hwf id l. simpl.
    intros [_ Hl]%lookup_delete_Some. by apply Hwf.
  - intros [->|[_ ->]]; [done|]. by intros Hwf.
  - intros -> Hwf id l. simpl.
    intros [[<- <-]|[_ Hl]]%lookup_insert_Some; [|by apply Hwf].
    simpl. split; [done|lia].
Qed.

Lemma outcome_groups_wf (op : Op) (s s' : State) :
  outcome op s s' → groups_wf s → groups_wf s'.
Proof.
  assert (∀ s0, lights_kept s s0 → groups_wf s → groups_wf s0) as Hkept.
  { intros s0 [(Hg & Hc & _) _] [Hone Hwf]. split; [by rewrite Hc|].
    intros gid g. rewrite Hg, Hc. apply Hwf. }
  assert (∀ f groupId,
            groups_wf s →
            groups_wf (set_groups (alter (with_lightIds f) groupId) s)) as Halter.
  { intros f groupId [Hone Hwf]. split; [done|]. intros gid g'. simpl.
    destruct (decide (groupId = gid)) as [->|Hne].
    - rewrite lookup_alter_eq. destruct (groups s !! gid) as [g|] eqn:Hg; [|done].
      intros [= <-]. simpl. by apply Hwf.
    - rewrite lookup_alter_ne by done. apply Hwf. }
  destruct op; cbn [outcome]; try apply Hkept.
  - intros [->|[_ ->]]; [done|]. intros [Hone Hwf]. split; [simpl; lia|].
    intros gid g. simpl.
    intros [[<- <-]|[_ Hg]]%lookup_insert_Some; [simpl; split; [done|lia]|].
    destruct (Hwf gid g Hg). lia.
  - intros [->|(g & _ & _ & _ & ->)]; [done|]. apply Halter.
  - intros [->| ->]; [done|]. apply Halter.
  - intros [->|[_ ->]]; [done|]. intros [Hone Hwf]. split; [done|].
    intros gid g'. simpl. rewrite lookup_fmap.
    destruct (groups s !! gid) as [g|] eqn:Hg; [|done].
    simpl. intros [= <-]. simpl. by apply Hwf.
  - intros [->|[_ ->]]; [done|]. intros [Hone Hwf]. split; [done|].
    intros gid g. simpl. intros [_ Hg]%lookup_delete_Some. by apply Hwf.
  - intros ->. by intros Hwf.
Qed.

Lemma init_lights_wf : lights_wf init.
Proof.
  intros id l. unfold init. simpl.
  intros [[<- <-]|[_ [[<- <-]|[_ H]]%lookup_insert_Some]]%lookup_insert_Some;
    [simpl; lia|simpl; lia|by rewrite lookup_empty in H].
Qed.

Lemma init_groups_wf : groups_wf init.
Proof.
  split; [simpl; lia|]. intros gid g H. simpl in H. by rewrite lookup_empty in H.
Qed.

Section WellFormed.
Variable parseDate : string → option Z.

(** X9. In every reachable state each light record carries the id it is
    stored under, and its brightness lies between 0 and 100: no method
    rewrites an id, and [setBrightness] is the only writer of brightness. *)
Theorem reachable_lights_wf (s : State) (id : Z) (l : Light) :
  reachable parseDate s → lights s !! id = Some l →
  light_id l = id ∧ 0 ≤ brightness l ≤ 100.
Proof.
  intros [ops <-]. revert id l.
  apply (run_invariant parseDate lights_wf); [|apply init_lights_wf].
  intros op s. apply outcome_lights_wf with op, exec_outcome.
Qed.

(** X10. In every reachable state each group record carries the id it is
    stored under, and that id is at least 1 and below the group counter. *)
Theorem reachable_groups_wf (s : State) (gid : Z) (g : LightGroup) :
  reachable parseDate s → groups s !! gid = Some g →
  group_id g = gid ∧ 1 ≤ gid < groupIdCounter s.
Proof.
  intros [ops <-]. revert gid g.
  apply (run_invariant parseDate groups_wf); [|apply init_groups_wf].
  intros op s. apply outcome_groups_wf with op, exec_outcome.
Qed.
End WellFormed.

Lemma reachable_lights_wf_witness :
  light_id (mkLight 1 Off 30 white) = 1 ∧
  0 ≤ brightness (mkLight 1 Off 30 white) ≤ 100.
Proof.
  apply (reachable_lights_wf (λ _, None) (setBrightness 1 30 init).2 1).
  - by exists [SetBrightness 1 30].
  - reflexivity.
Defined.

Lemma reachable_groups_wf_witness :
  group_id (mkGroup 1 "G" [1; 2]) = 1 ∧
  1 ≤ 1 < groupIdCounter (group_added "G" [1; 2] init).
Proof.
  apply (reachable_groups_wf (λ _, None) (group_added "G" [1; 2] init) 1).
  - by exists [CreateGroup "G" [1; 2]].
  - reflexivity.
Defined.

(** ** Id allocation *)

Lemma outcome_lightIdCounter (op : Op) (s s' : State) :
  outcome op s s' →
  lightIdCounter s' = match op with
                      | AddLight => lightIdCounter s + 1
                      | _ => lightIdCounter s
                      end.
Proof.
  destruct op; cbn [outcome];
    try (by intros [(_ & _ & H & _) _]);
    try (by intros [->|[_ ->]]);
    try (by intros [->| ->]).
  - by intros [->|(g & _ & _ & _ & ->)].
  - by intros ->.
Qed.

Lemma seqZ_next (m : Z) (n : nat) :
  m :: seqZ (m + 1) (Z.of_nat n) = seqZ m (Z.of_nat (S n)).
Proof.
  rewrite (seqZ_cons m (Z.of_nat (S n))) by lia. f_equal. f_equal; lia.
Qed.

Section Allocation.
Variable parseDate : string → option Z.

Lemma exec_createGroup (nm : string) (ids : list Z) (s : State) :
  exec parseDate (CreateGroup nm ids) s
    = (Ok (VId (groupIdCounter s)), group_added nm ids s) ∨
  exec parseDate (CreateGroup nm ids) s = (Throw LightNotFound, s).
Proof.
  cbn [exec]. unfold returning, bind.
  destruct (decide (Forall (λ id, is_Some (lights s !! id)) ids)) as [H|H].
  - left. rewrite createGroup_known; [done|].
    intros id Hid. by apply (proj1 (Forall_forall _ _) H).
  - right. apply not_Forall_Exists in H; [|apply _].
    apply Exists_exists in H as (id & Hin & Hid).
    rewrite (createGroup_unknown s nm ids); [done|].
    exists id. split; [done|]. by apply eq_None_not_Some.
Qed.

Lemma run_allocated_consecutive (ops : list Op) (s : State) :
  allocated (run parseDate ops s).1
    = seqZ (lightIdCounter s) (Z.of_nat (addLight_calls ops)) ∧
  lightIdCounter (run parseDate ops s).2
    = lightIdCounter s + Z.of_nat (addLight_calls ops).
Proof.
  revert s. induction ops as [|op ops IH]; intros s.
  - split; [done|simpl; lia].
  - rewrite run_cons. cbn [fst snd].
    destruct (IH (exec parseDate op s).2) as [Hids Hc].
    pose proof (outcome_lightIdCounter op s _ (exec_outcome parseDate op s))
      as Hstep.
    destruct op;
      try (cbn [allocated addLight_calls]; rewrite Hids, Hc, Hstep; done).
    change (exec parseDate AddLight s)
      with (Ok (VId (lightIdCounter s)), light_added s) in *.
    cbn [fst snd allocated addLight_calls] in *.
    rewrite Hids, Hc, Hstep. split; [apply seqZ_next|lia].
Qed.

Lemma run_created_consecutive (ops : list Op) (s : State) :
  created (run parseDate ops s).1
    = seqZ (groupIdCounter s) (Z.of_nat (length (created (run parseDate ops s).1))) ∧
  groupIdCounter (run parseDate ops s).2
    = groupIdCounter s + Z.of_nat (length (created (run parseDate ops s).1)).
Proof.
  revert s. induction ops as [|op ops IH]; intros s.
  - split; [done|simpl; lia].
  - rewrite run_cons. cbn [fst snd].
    destruct (IH (exec parseDate op s).2) as [Hids Hc].
    assert (∀ s0, lights_kept s s0 → groupIdCounter s0 = groupIdCounter s)
      as Hkept by (by intros s0 [(_ & H & _) _]).
    pose proof (exec_outcome parseDate op s) as Hout.
    destruct op; cbn [outcome] in Hout;
      try (cbn [created]; rewrite Hc, (Hkept _ Hout) in *; done).
    + destruct (exec_createGroup nm ids s) as [Hrun|Hrun];
        rewrite Hrun in *; cbn [fst snd created] in *.
      * rewrite Hc. cbn [length]. rewrite Hids at 1. simpl groupIdCounter.
        split; [apply seqZ_next|lia].
      * done.
    + cbn [created]. destruct Hout as [Hs|(g & _ & _ & _ & Hs)];
        rewrite Hs in *; done.
    + cbn [created]. destruct Hout as [Hs|Hs]; rewrite Hs in *; done.
    + cbn [created]. destruct Hout as [Hs|[_ Hs]]; rewrite Hs in *; done.
    + cbn [created]. destruct Hout as [Hs|[_ Hs]]; rewrite Hs in *; done.
    + cbn [created]. rewrite Hout in *. done.
Qed.

(** X11. Light ids are handed out without gaps: over any run from the state
    the constructor builds, the [addLight] calls return 3, 4, 5, ... in
    call order, whatever else is called in between, and the light counter
    ends at 3 plus the number of [addLight] calls. *)
Theorem addLight_ids_consecutive (ops : list Op) :
  allocated (run parseDate ops init).1 = seqZ 3 (Z.of_nat (addLight_calls ops)) ∧
  lightIdCounter (run parseDate ops init).2 = 3 + Z.of_nat (addLight_calls ops).
Proof. apply (run_allocated_consecutive ops init). Qed.

(** X12. Group ids are handed out without gaps and only on success: over any
    run from the state the constructor builds, the successful
    [createGroup] calls return 1, 2, 3, ... in call order; a failed
    [createGroup] uses up no id and [deleteGroup] frees none, and the
    group counter ends at 1 plus the number of groups ever created. *)
Theorem createGroup_ids_consecutive (ops : list Op) :
  created (run parseDate ops init).1
    = seqZ 1 (Z.of_nat (length (created (run parseDate ops init).1))) ∧
  groupIdCounter (run parseDate ops init).2
    = 1 + Z.of_nat (length (created (run parseDate ops init).1)).
Proof. apply (run_created_consecutive ops init). Qed.
End Allocation.

(** A failed creation, a creation, a deletion and a creation: the groups
    get ids 1 and 2. *)
Example createGroup_ids_example :
  created (run (λ _, None)
               [CreateGroup "A" [7]; CreateGroup "B" [1]; DeleteGroup 1;
                CreateGroup "C" [2]] init).1
  = [1; 2].
Proof. reflexivity. Qed.

(** ** Deleted lights, new lights *)

Lemma outcome_gone (id : Z) (op : Op) (s s' : State) :
  outcome op s s' → gone id s → gone id s'.
Proof.
  assert (∀ s0, lights_kept s s0 → gone id s → gone id s0) as Hkept.
  { intros s0 [(_ & _ & Hc & Hl) _] [Hnone Hlt]. split; [|by rewrite Hc].
    apply eq_None_not_Some. intros H%Hl. by rewrite Hnone in H; destruct H. }
  destruct op; cbn [outcome]; try apply Hkept.
  - by intros [->|[_ ->]].
  - by intros [->|(g & _ & _ & _ & ->)].
  - by intros [->| ->].
  - intros [->|[_ ->]]; [done|]. intros [Hnone Hlt]. split; [|done].
    simpl. apply lookup_delete_None. by right.
  - by intros [->|[_ ->]].
  - intros -> [Hnone Hlt]. split; simpl; [|lia].
    rewrite lookup_insert_ne by lia. done.
Qed.

Section Lifetimes.
Variable parseDate : string → option Z.

Lemma run_app (ops1 ops2 : list Op) (s : State) :
  (run parseDate (ops1 ++ ops2) s).2
  = (run parseDate ops2 (run parseDate ops1 s).2).2.
Proof.
  revert s. induction ops1 as [|op ops1 IH]; intros s; [done|].
  rewrite <- app_comm_cons, !run_cons. simpl. apply IH.
Qed.

Lemma reachable_run (ops : list Op) (s : State) :
  reachable parseDate s → reachable parseDate (run parseDate ops s).2.
Proof. intros [ops0 <-]. exists (ops0 ++ ops). apply run_app. Qed.

Lemma run_members_exist (s : State) :
  reachable parseDate s → members_exist s.
Proof.
  intros [ops <-]. apply (run_invariant parseDate members_exist).
  - intros op s. apply exec_members_exist.
  - apply init_members_exist.
Qed.

(** X13. A deleted light stays deleted. In a reachable state, once
    [deleteLightFromGroup] has removed light [id], no sequence of later
    calls — [addLight], timers firing for that light, group calls — makes
    [getLight id] find a light again, and no group ever lists the id. *)
Theorem deleted_light_never_returns (s : State) (id : Z) (ops : list Op) :
  reachable parseDate s → is_Some (lights s !! id) →
  (deleteLightFromGroup id s).1 = Ok tt ∧
  lights (run parseDate ops (deleteLightFromGroup id s).2).2 !! id = None ∧
  ∀ gid g,
    groups (run parseDate ops (deleteLightFromGroup id s).2).2 !! gid = Some g →
    id ∉ lightIds g.
Proof.
  intros Hreach [l Hl].
  pose proof (reachable_lights_below_counter parseDate s Hreach id l Hl) as Hlt.
  rewrite (deleteLightFromGroup_found s id l Hl). simpl.
  assert (gone id (run parseDate ops (light_deleted id s)).2) as [Hnone _].
  { apply (run_invariant parseDate (gone id)).
    - intros op s0. apply outcome_gone with op, exec_outcome.
    - split; [apply lookup_delete_eq|done]. }
  split; [done|]. split; [done|].
  intros gid g Hg Hin.
  assert (reachable parseDate (run parseDate ops (light_deleted id s)).2) as Hr.
  { apply reachable_run.
    replace (light_deleted id s)
      with (run parseDate [DeleteLightFromGroup id] s).2.
    - by apply reachable_run.
    - rewrite run_cons. cbn [run exec snd]. rewrite returning_state.
      by rewrite (deleteLightFromGroup_found s id l Hl). }
  destruct (run_members_exist _ Hr gid g id Hg Hin) as [l' Hl'].
  congruence.
Qed.

(** X14. In a reachable state [addLight] creates a light that is new in every
    respect: the id it returns names no light of the store and is listed
    by no group; the new record is off, brightness 0, white; every light
    that was there is kept unchanged, and so are the groups. *)
Theorem addLight_creates_fresh_light (s : State) :
  reachable parseDate s →
  ∃ s', addLight s = (Ok (lightIdCounter s), s') ∧
        lights s !! lightIdCounter s = None ∧
        lights s' !! lightIdCounter s
          = Some (mkLight (lightIdCounter s) Off 0 white) ∧
        (∀ j l, lights s !! j = Some l → lights s' !! j = Some l) ∧
        groups s' = groups s ∧
        (∀ gid g, groups s' !! gid = Some g → lightIdCounter s ∉ lightIds g).
Proof.
  intros Hreach. exists (light_added s).
  assert (lights s !! lightIdCounter s = None) as Hnone.
  { destruct (lights s !! lightIdCounter s) as [l|] eqn:Hl; [|done].
    pose proof (reachable_lights_below_counter parseDate s Hreach _ l Hl). lia. }
  split; [done|]. split; [done|]. split; [apply lookup_insert_eq|].
  split; [|split; [done|]].
  - intros j l Hl. simpl. rewrite lookup_insert_ne; [done|]. congruence.
  - intros gid g Hg Hin. simpl in Hg.
    destruct (run_members_exist s Hreach gid g _ Hg Hin) as [l Hl]. congruence.
Qed.

(** X15. In a reachable state [controlGroup] on an existing group cannot fail:
    every member is a light, so each is switched and the call returns
    normally; afterwards every member is a light whose status is [action]
    (id, brightness and color as before), and nothing else has changed. *)
Theorem controlGroup_succeeds_when_reachable (s : State) (groupId : Z)
    (g : LightGroup) (action : OnOff) :
  reachable parseDate s → groups s !! groupId = Some g →
  ∃ s', controlGroup groupId action s = (Ok tt, s') ∧
        (∀ j, j ∈ lightIds g →
              ∃ l l', lights s !! j = Some l ∧
                      lights s' !! j
                      = Some (mkLight (light_id l) action (brightness l) (color l)) ∧
                      lights s' !! j = Some l' ∧ status l' = action) ∧
        toggled action (lightIds g) s s'.
Proof.
  intros Hreach Hg. exists (set_lights (switched action (lightIds g)) s).
  assert (all_known s (lightIds g)) as Hall.
  { intros id Hid. by apply (run_members_exist s Hreach groupId g). }
  pose proof (switched_toggled action (lightIds g) s) as Htog.
  split; [|split; [|exact Htog]].
  - unfold controlGroup, bind, get. simpl. rewrite Hg.
    by apply forEach_switch_ok.
  - intros j Hj. destruct (Hall j Hj) as [l Hl].
    destruct Htog as (Hset & _).
    exists l, (mkLight (light_id l) action (brightness l) (color l)).
    split; [done|]. rewrite (Hset j Hj), Hl. by split.
Qed.
End Lifetimes.

Lemma deleted_light_never_returns_witness :
  (deleteLightFromGroup 2 init).1 = Ok tt ∧
  lights (run (λ _, None) [AddLight; TurnOn 2]
              (deleteLightFromGroup 2 init).2).2 !! 2 = None ∧
  ∀ gid g,
    groups (run (λ _, None) [AddLight; TurnOn 2]
                (deleteLightFromGroup 2 init).2).2 !! gid = Some g →
    2 ∉ lightIds g.
Proof.
  apply (deleted_light_never_returns (λ _, None) init 2 [AddLight; TurnOn 2]).
  - by exists [].
  - by eexists.
Defined.

Lemma addLight_creates_fresh_light_witness :
  ∃ s', addLight init = (Ok (lightIdCounter init), s') ∧
        lights init !! lightIdCounter init = None ∧
        lights s' !! lightIdCounter init
          = Some (mkLight (lightIdCounter init) Off 0 white) ∧
        (∀ j l, lights init !! j = Some l → lights s' !! j = Some l) ∧
        groups s' = groups init ∧
        (∀ gid g, groups s' !! gid = Some g → lightIdCounter init ∉ lightIds g).
Proof. apply (addLight_creates_fresh_light (λ _, None) init). by exists []. Defined.

Lemma controlGroup_succeeds_when_reachable_witness :
  ∃ s', controlGroup 1 On (group_added "G" [2; 1] init) = (Ok tt, s') ∧
        lights s' !! 1 = Some (mkLight 1 On 0 white) ∧
        lights s' !! 2 = Some (mkLight 2 On 0 white).
Proof.
  destruct (controlGroup_succeeds_when_reachable (λ _, None)
              (group_added "G" [2; 1] init) 1 (mkGroup 1 "G" [2; 1]) On)
    as (s' & Hrun & _ & Hset & _).
  - by exists [CreateGroup "G" [2; 1]].
  - reflexivity.
  - exists s'. split; [exact Hrun|]. split.
    + rewrite (Hset 1); [reflexivity|].
      apply elem_of_cons. right. apply elem_of_cons. by left.
    + rewrite (Hset 2); [reflexivity|]. apply elem_of_cons. by left.
Defined.

(** ** Deleting and creating groups *)

(** X16. [deleteGroup] on a missing group throws "Group not found" and changes
    nothing. On an existing group it succeeds and removes that group
    only: the other groups, every light (the members included), the
    counters and the timers are kept; from then on [controlGroup],
    [addLightToGroup] with an existing light, [removeLightFromGroup] and
    [deleteGroup] on that id throw "Group not found". *)
Theorem deleteGroup_spec (s : State) (groupId : Z) :
  (groups s !! groupId = None → deleteGroup groupId s = (Throw GroupNotFound, s)) ∧
  (is_Some (groups s !! groupId) →
     ∃ s', deleteGroup groupId s = (Ok tt, s') ∧
           groups s' !! groupId = None ∧
           (∀ j, j ≠ groupId → groups s' !! j = groups s !! j) ∧
           lights s' = lights s ∧
           groupIdCounter s' = groupIdCounter s ∧
           lightIdCounter s' = lightIdCounter s ∧
           timers s' = timers s ∧
           (∀ action, controlGroup groupId action s' = (Throw GroupNotFound, s')) ∧
           (∀ lightId, is_Some (lights s' !! lightId) →
              addLightToGroup groupId lightId s' = (Throw GroupNotFound, s')) ∧
           (∀ lightId,
              removeLightFromGroup groupId lightId s' = (Throw GroupNotFound, s')) ∧
           deleteGroup groupId s' = (Throw GroupNotFound, s')).
Proof.
  assert (∀ s0, groups s0 !! groupId = None →
                deleteGroup groupId s0 = (Throw GroupNotFound, s0)) as Hmissing.
  { intros s0 H. unfold deleteGroup, bind, get. simpl. by rewrite H. }
  split; [apply Hmissing|].
  intros [g Hg]. exists (set_groups (delete groupId) s).
  assert (groups (set_groups (delete groupId) s) !! groupId = None) as Hnone
    by apply lookup_delete_eq.
  split; [unfold deleteGroup, bind, get; simpl; by rewrite Hg|].
  split; [done|].
  split; [intros j Hj; simpl; by rewrite lookup_delete_ne|].
  repeat (split; [done|]).
  split; [|split; [|split]].
  - intros action. unfold controlGroup, bind, get. cbn [fst snd].
    by rewrite Hnone.
  - intros lightId [l Hl]. unfold addLightToGroup.
    rewrite (verified_bind _ lightId l Hl). unfold bind, get. cbn [fst snd].
    by rewrite Hnone.
  - intros lightId. unfold removeLightFromGroup, bind, get. cbn [fst snd].
    by rewrite Hnone.
  - by apply Hmissing.
Qed.

Lemma deleteGroup_spec_witness :
  deleteGroup 3 init = (Throw GroupNotFound, init) ∧
  ∃ s', deleteGroup 1 (group_added "G" [1] init) = (Ok tt, s') ∧
        groups s' !! 1 = None ∧
        lights s' = lights (group_added "G" [1] init).
Proof.
  split.
  - destruct (deleteGroup_spec init 3) as [H _]. by apply H.
  - destruct (deleteGroup_spec (group_added "G" [1] init) 1) as [_ H].
    destruct H as (s' & H1 & H2 & _ & H3 & _); [by eexists|].
    by exists s'.
Defined.

(** X17. An empty group is allowed: [createGroup] with an empty id list
    succeeds in every state, even one with no lights, and [controlGroup]
    on the new group succeeds and changes nothing. *)
Theorem createGroup_empty (s : State) (nm : string) (action : OnOff) :
  createGroup nm [] s = (Ok (groupIdCounter s), group_added nm [] s) ∧
  controlGroup (groupIdCounter s) action (group_added nm [] s)
    = (Ok tt, group_added nm [] s).
Proof.
  split; [done|]. unfold controlGroup, bind, get. cbn [fst snd].
  replace (groups (group_added nm [] s) !! groupIdCounter s)
    with (Some (mkGroup (groupIdCounter s) nm [])); [done|].
  symmetry. apply lookup_insert_eq.
Qed.

(** ** Scheduled actions *)

Lemma not_in_past_negative (target : option Z) (now : Z) :
  not_in_past target now → negative (calculateDelay target now) = false.
Proof.
  intros [->|(t & -> & Ht)]; [done|]. simpl. lia.
Qed.

Lemma fireTimer_pending (s : State) (i : nat) (t : Timer) :
  timers s !! i = Some t →
  fireTimer i s = switch (timer_action t) (timer_light t) (set_timers (delete i) s).
Proof. intros H. unfold fireTimer, bind, get, modify. simpl. by rewrite H. Qed.

Section Timers.
Variable parseDate : string → option Z.

Lemma scheduleAction_accepted (s : State) (now id : Z) (time : string)
    (action : OnOff) (l : Light) :
  lights s !! id = Some l → not_in_past (parseDate time) now →
  scheduleAction parseDate now id time action s
  = (Ok tt, set_timers (λ q, q ++ [mkTimer (calculateDelay (parseDate time) now)
                                           id action time]) s).
Proof.
  intros Hl Hd. unfold scheduleAction. rewrite (verified_bind s id l Hl).
  cbv zeta. by rewrite (not_in_past_negative _ _ Hd).
Qed.

(** X18. [scheduleAction] on an existing light, with a time that is not in the
    past, succeeds and does nothing but register one callback, behind the
    pending ones, for that light and action: no light changes status at
    scheduling time, and groups and counters are kept. A time string that
    does not parse is accepted as well, with a [NaN] delay. *)
Theorem scheduleAction_registers (s : State) (now id : Z) (time : string)
    (action : OnOff) :
  is_Some (lights s !! id) → not_in_past (parseDate time) now →
  ∃ s', scheduleAction parseDate now id time action s = (Ok tt, s') ∧
        timers s' = timers s ++ [mkTimer (calculateDelay (parseDate time) now)
                                         id action time] ∧
        lights s' = lights s ∧
        groups s' = groups s ∧
        groupIdCounter s' = groupIdCounter s ∧
        lightIdCounter s' = lightIdCounter s.
Proof.
  intros [l Hl] Hd. eexists.
  split; [by apply (scheduleAction_accepted s now id time action l)|done].
Qed.

(** X19. A scheduled action whose light is deleted before the timer fires:
    when the callback runs, [turnOn]/[turnOff] throws "Light not found"
    out of the callback (nothing catches it); the light is not brought
    back, no other light changes, and the callback is gone from the
    queue. *)
Theorem scheduled_action_on_deleted_light (s : State) (now id : Z)
    (time : string) (action : OnOff) :
  is_Some (lights s !! id) → not_in_past (parseDate time) now →
  ∃ s1 s2 s3,
    scheduleAction parseDate now id time action s = (Ok tt, s1) ∧
    deleteLightFromGroup id s1 = (Ok tt, s2) ∧
    fireTimer (length (timers s)) s2 = (Throw LightNotFound, s3) ∧
    lights s3 !! id = None ∧
    lights s3 = lights s2 ∧
    groups s3 = groups s2 ∧
    timers s3 = timers s.
Proof.
  intros [l Hl] Hd.
  eexists _, _, _.
  split; [by apply (scheduleAction_accepted s now id time action l)|].
  split; [by apply (deleteLightFromGroup_found _ id l)|].
  erewrite fireTimer_pending.
  2:{ simpl. by rewrite lookup_app_r, Nat.sub_diag. }
  simpl. rewrite switch_missing by (simpl; apply lookup_delete_eq).
  split; [done|]. split; [simpl; apply lookup_delete_eq|].
  split; [done|]. split; [done|]. simpl.
  by rewrite delete_middle, app_nil_r.
Qed.
End Timers.

(** X20. The runtime firing the pending callback at position [i]: with no
    callback there, nothing happens. Otherwise the callback leaves the
    queue (the others keep their order) and runs once: when its light
    exists, the light gets the scheduled status and nothing else changes;
    when its light is gone, "Light not found" is thrown out of the
    callback and neither lights nor groups change. *)
Theorem fireTimer_spec (s : State) (i : nat) :
  (timers s !! i = None → fireTimer i s = (Ok tt, s)) ∧
  (∀ t, timers s !! i = Some t →
     timers (fireTimer i s).2 = delete i (timers s) ∧
     groups (fireTimer i s).2 = groups s ∧
     groupIdCounter (fireTimer i s).2 = groupIdCounter s ∧
     lightIdCounter (fireTimer i s).2 = lightIdCounter s ∧
     (∀ l, lights s !! timer_light t = Some l →
        (fireTimer i s).1 = Ok tt ∧
        lights (fireTimer i s).2 !! timer_light t
          = Some (mkLight (light_id l) (timer_action t) (brightness l) (color l)) ∧
        ∀ j, j ≠ timer_light t → lights (fireTimer i s).2 !! j = lights s !! j) ∧
     (lights s !! timer_light t = None →
        (fireTimer i s).1 = Throw LightNotFound ∧
        lights (fireTimer i s).2 = lights s)).
Proof.
  split.
  - intros H. unfold fireTimer, bind, get. simpl. by rewrite H.
  - intros t Ht. rewrite (fireTimer_pending s i t Ht).
    destruct (lights s !! timer_light t) as [l|] eqn:Hl.
    + rewrite (switch_found _ (timer_action t) (timer_light t) l) by done.
      simpl. repeat (split; [done|]). split; [|done].
      intros l0 [= <-]. split; [done|]. split.
      * by rewrite lookup_alter_eq, Hl.
      * intros j Hj. by rewrite lookup_alter_ne.
    + rewrite switch_missing by done. simpl. repeat (split; [done|]).
      done.
Qed.

Lemma scheduleAction_registers_witness :
  ∃ s', scheduleAction (λ _, None) 5 1 "soon" On init = (Ok tt, s') ∧
        timers s' = timers init ++ [mkTimer (calculateDelay None 5) 1 On "soon"] ∧
        lights s' = lights init ∧
        groups s' = groups init ∧
        groupIdCounter s' = groupIdCounter init ∧
        lightIdCounter s' = lightIdCounter init.
Proof.
  apply (scheduleAction_registers (λ _, None) init 5 1 "soon" On).
  - by eexists.
  - by left.
Defined.

Lemma scheduled_action_on_deleted_light_witness :
  ∃ s1 s2 s3,
    scheduleAction (λ _, Some 9) 5 2 "later" On init = (Ok tt, s1) ∧
    deleteLightFromGroup 2 s1 = (Ok tt, s2) ∧
    fireTimer (length (timers init)) s2 = (Throw LightNotFound, s3) ∧
    lights s3 !! 2 = None ∧
    lights s3 = lights s2 ∧
    groups s3 = groups s2 ∧
    timers s3 = timers init.
Proof.
  apply (scheduled_action_on_deleted_light (λ _, Some 9) init 5 2 "later" On).
  - by eexists.
  - right. exists 9. split; [done|lia].
Defined.

Lemma fireTimer_spec_witness :
  fireTimer 0 init = (Ok tt, init) ∧
  (fireTimer 0 (set_timers (λ _, [mkTimer (Some 4) 1 On "t"]) init)).1 = Ok tt ∧
  lights (fireTimer 0 (set_timers (λ _, [mkTimer (Some 4) 1 On "t"]) init)).2 !! 1
    = Some (mkLight 1 On 0 white).
Proof.
  split.
  - destruct (fireTimer_spec init 0) as [H _]. by apply H.
  - destruct (fireTimer_spec (set_timers (λ _, [mkTimer (Some 4) 1 On "t"]) init) 0)
      as [_ H].
    destruct (H (mkTimer (Some 4) 1 On "t") eq_refl) as (_ & _ & _ & _ & H1 & _).
    destruct (H1 (newLight 1) eq_refl) as (H2 & H3 & _). by split.
Defined.

(** * Properties of the rate limiter *)

Lemma prune_sublist (clock : nat → Z) (k : nat) (l : list Z) :
  sublist (prune clock k l) l.
Proof.
  revert k. induction l as [|t l IH]; intros k; simpl; [constructor|].
  destruct (clock k - t <? windowMs); [by apply sublist_skip|by apply sublist_cons].
Qed.

Lemma prune_length (clock : nat → Z) (k : nat) (l : list Z) :
  (length (prune clock k l) ≤ length l)%nat.
Proof. apply sublist_length, prune_sublist. Qed.

Lemma rateLimit_other (limit : Z) (message : string) (ip : option string)
    (clock : nat → Z) (requests : gmap string (list Z)) (ip' : string) :
  ip' ≠ default "" ip →
  (rateLimit limit message ip clock requests).2 !! ip' = requests !! ip'.
Proof.
  intros Hne. unfold rateLimit. cbv zeta.
  destruct (limit <=? _); simpl; by rewrite lookup_insert_ne.
Qed.

Lemma rateLimit_bounded (limit : Z) (message : string) (ip : option string)
    (clock : nat → Z) (requests : gmap string (list Z)) :
  0 ≤ limit →
  (∀ a l, requests !! a = Some l → Z.of_nat (length l) ≤ limit) →
  ∀ a l, (rateLimit limit message ip clock requests).2 !! a = Some l →
         Z.of_nat (length l) ≤ limit.
Proof.
  intros Hlimit Hinv a l.
  destruct (decide (a = default "" ip)) as [->|Hne];
    [|rewrite rateLimit_other by done; apply Hinv].
  unfold rateLimit. cbv zeta.
  pose proof (prune_length clock 0 (default [] (requests !! default "" ip)))
    as Hlen.
  destruct (limit <=? _) eqn:Hfull; simpl; rewrite lookup_insert_eq;
    intros [= <-].
  - destruct (requests !! default "" ip) as [l0|] eqn:Hl0; simpl in *.
    + specialize (Hinv _ _ Hl0). lia.
    + lia.
  - rewrite length_app. simpl. lia.
Qed.

Lemma prune_expired (clock : nat → Z) (k : nat) (l : list Z) :
  (∀ j t, t ∈ l → windowMs ≤ clock j - t) → prune clock k l = [].
Proof.
  revert k. induction l as [|t l IH]; intros k H; [done|]. simpl.
  pose proof (H k t ltac:(apply elem_of_cons; by left)) as Ht.
  replace (clock k - t <? windowMs) with false by lia.
  apply IH. intros j t' Ht'. apply H, elem_of_cons. by right.
Qed.

(** X21. The limiter keeps at most [limit] timestamps per address: after any
    sequence of requests, from any addresses and with any clock readings,
    no stored list is longer than [limit]. *)
Theorem rateLimit_memory_bound (limit : Z) (message : string)
    (rs : list Request) (ip : string) (l : list Z) :
  0 ≤ limit →
  limiter_after limit message rs ∅ !! ip = Some l →
  Z.of_nat (length l) ≤ limit.
Proof.
  intros Hlimit. unfold limiter_after.
  assert (∀ m : gmap string (list Z),
            (∀ a l0, m !! a = Some l0 → Z.of_nat (length l0) ≤ limit) →
            ∀ a l0, foldl (λ m r, (rateLimit limit message (req_ip r)
                                     (req_clock r) m).2) m rs !! a = Some l0 →
                    Z.of_nat (length l0) ≤ limit) as H.
  { induction rs as [|r rs IH]; intros m Hm; [done|]. simpl.
    apply IH. by apply rateLimit_bounded. }
  apply H. intros a l0 Hl0. by rewrite lookup_empty in Hl0.
Qed.

Lemma rateLimit_memory_bound_witness :
  Z.of_nat (length [7]) ≤ 1.
Proof.
  apply (rateLimit_memory_bound 1 "slow down"
           [mkRequest (Some "10.0.0.1") (λ _, 7);
            mkRequest (Some "10.0.0.1") (λ _, 8)] "10.0.0.1").
  - lia.
  - reflexivity.
Defined.

(** X22. Addresses are limited independently: a request changes the stored
    timestamps of its own address only, and whether it passes depends on
    the timestamps stored for its own address only. *)
Theorem rateLimit_per_address (limit : Z) (message : string)
    (ip : option string) (clock : nat → Z) (m1 m2 : gmap string (list Z)) :
  (∀ ip', ip' ≠ default "" ip →
          (rateLimit limit message ip clock m1).2 !! ip' = m1 !! ip') ∧
  (m1 !! default "" ip = m2 !! default "" ip →
   (rateLimit limit message ip clock m1).1 = (rateLimit limit message ip clock m2).1 ∧
   (rateLimit limit message ip clock m1).2 !! default "" ip
   = (rateLimit limit message ip clock m2).2 !! default "" ip).
Proof.
  split; [intros ip'; apply rateLimit_other|].
  intros H. unfold rateLimit. cbv zeta. rewrite H.
  destruct (limit <=? _); simpl; by rewrite !lookup_insert_eq.
Qed.

(** X23. When a request is let through. A request from an address with fewer
    than [limit] stored timestamps passes, whatever the clock reads, and
    its timestamp is recorded. A request from an address whose stored
    timestamps are all a full window old passes as soon as [limit] is at
    least 1, and the address starts over with that one timestamp. *)
Theorem rateLimit_admits (limit : Z) (message : string) (ip : option string)
    (clock : nat → Z) (requests : gmap string (list Z)) :
  (Z.of_nat (length (default [] (requests !! default "" ip))) < limit →
     (rateLimit limit message ip clock requests).1 = Next ∧
     ∃ kept, sublist kept (default [] (requests !! default "" ip)) ∧
             (rateLimit limit message ip clock requests).2 !! default "" ip
             = Some (kept ++ [clock (length (default [] (requests !! default "" ip)))])) ∧
  (1 ≤ limit →
   (∀ j t, t ∈ default [] (requests !! default "" ip) → windowMs ≤ clock j - t) →
     rateLimit limit message ip clock requests
     = (Next, <[default "" ip :=
                  [clock (length (default [] (requests !! default "" ip)))]]>
                requests)).
Proof.
  split.
  - intros Hlt. unfold rateLimit. cbv zeta.
    pose proof (prune_length clock 0 (default [] (requests !! default "" ip))).
    replace (limit <=? _) with false by lia. simpl. split; [done|].
    eexists. split; [apply prune_sublist|]. by rewrite lookup_insert_eq.
  - intros Hlimit Hold. unfold rateLimit. cbv zeta.
    rewrite prune_expired by done. cbn [length app].
    change (Z.of_nat 0) with 0.
    destruct (limit <=? 0) eqn:H; [lia|done].
Qed.

Lemma rateLimit_admits_witness :
  (rateLimit 2 "slow down" (Some "10.0.0.1") (λ _, 50)
             (<["10.0.0.1" := [10]]> ∅)).1 = Next ∧
  rateLimit 1 "slow down" (Some "10.0.0.1") (λ _, 900010)
            (<["10.0.0.1" := [10]]> ∅)
  = (Next, <["10.0.0.1" := [900010]]> (<["10.0.0.1" := [10]]> ∅)).
Proof.
  split.
  - destruct (rateLimit_admits 2 "slow down" (Some "10.0.0.1") (λ _, 50)
                (<["10.0.0.1" := [10]]> ∅)) as [H _].
    apply H. by vm_compute.
  - destruct (rateLimit_admits 1 "slow down" (Some "10.0.0.1") (λ _, 900010)
                (<["10.0.0.1" := [10]]> ∅)) as [_ H].
    apply H; [lia|]. intros j t Ht.
    change (t ∈ [10]) in Ht.
    apply list_elem_of_singleton in Ht as ->. unfold windowMs. lia.
Defined.

Lemma filter_sublist_mono {A} (P : A → Prop) `{!∀ x, Decision (P x)}
    (l k : list A) :
  sublist l k → sublist (filter P l) (filter P k).
Proof.
  induction 1 as [|x l k _ IH|x l k _ IH]; [constructor| |].
  - rewrite !filter_cons. destruct (decide (P x)); [by apply sublist_skip|done].
  - rewrite (filter_cons _ x k). destruct (decide (P x)); [by apply sublist_cons|done].
Qed.

Lemma recent_recent (T T' : Z) (l : list Z) :
  T ≤ T' → recent T' (recent T l) = recent T' l.
Proof.
  intros H. unfold recent. rewrite list_filter_filter.
  apply list_filter_iff. intros t. lia.
Qed.

Lemma recent_later (T T' : Z) (l : list Z) :
  T ≤ T' → sublist (recent T' l) (recent T l).
Proof.
  intros H. rewrite <- (recent_recent T T' l H). apply sublist_filter.
Qed.

Lemma recent_prune (clock : nat → Z) (T' : Z) (k : nat) (l : list Z) :
  (∀ j, (k ≤ j < k + length l)%nat → clock j ≤ T') →
  sublist (recent T' l) (prune clock k l).
Proof.
  revert k. induction l as [|t l IH]; intros k H; [constructor|].
  assert (sublist (recent T' l) (prune clock (S k) l)) as Htail.
  { apply IH. intros j Hj. apply H. simpl. lia. }
  pose proof (H k ltac:(simpl; lia)) as Hk.
  unfold recent in *. rewrite filter_cons. simpl.
  destruct (decide (T' - t < windowMs)) as [Hin|Hout].
  - replace (clock k - t <? windowMs) with true by lia. by apply sublist_skip.
  - destruct (clock k - t <? windowMs); [by apply sublist_cons|done].
Qed.

Lemma clock_monotone (clock : nat → Z) (j n : nat) :
  (∀ k, clock k ≤ clock (S k)) → (j ≤ n)%nat → clock j ≤ clock n.
Proof.
  intros H Hjn. induction Hjn as [|n _ IH]; [lia|].
  pose proof (H n). lia.
Qed.

Lemma passed_window (limit : Z) (message : string) (rs : list Request) :
  ∀ (m : gmap string (list Z)) (acc : string → list Z) (T : Z),
    clock_advances rs →
    Forall (λ r, ∀ k, T ≤ req_clock r k) rs →
    (∀ ip, sublist (recent T (acc ip)) (default [] (m !! ip))) →
    ∀ pre ip t post,
      passed limit message rs m = pre ++ (ip, t) :: post →
      Z.of_nat (length (recent t (acc ip ++ stamps ip pre))) < limit.
Proof.
  induction rs as [|r rs IH]; intros m acc T Hclock HT Hinv pre ip t post Hlog.
  { by destruct pre. }
  destruct Hclock as (Hmono & Hlater & Hclock).
  apply Forall_cons in HT as [HTr _].
  set (key := default "" (req_ip r)) in *.
  set (stored := default [] (m !! key)) in *.
  set (kept := prune (req_clock r) 0 stored) in *.
  set (T' := req_clock r (length stored)) in *.
  assert (T ≤ T') as HTT' by apply HTr.
  assert (Forall (λ r', ∀ k, T' ≤ req_clock r' k) rs) as HT'.
  { eapply Forall_impl; [exact Hlater|]. intros r' Hr' k. apply Hr'. }
  assert (sublist (recent T' (acc key)) kept) as Hkey.
  { rewrite <- (recent_recent T T' (acc key) HTT').
    etrans; [apply filter_sublist_mono, (Hinv key)|].
    apply recent_prune. intros j Hj. apply clock_monotone; [done|lia]. }
  assert (∀ a, a ≠ key → sublist (recent T' (acc a)) (default [] (m !! a)))
    as Hother.
  { intros a _. etrans; [by apply recent_later|apply Hinv]. }
  cbn [passed] in Hlog. fold key in Hlog. fold stored in Hlog. fold T' in Hlog.
  unfold rateLimit in Hlog. cbv zeta in Hlog.
  fold key in Hlog. fold stored in Hlog. fold kept in Hlog. fold T' in Hlog.
  destruct (limit <=? Z.of_nat (length kept)) eqn:Hfull.
  - (* rejected *)
    apply (IH (<[key := kept]> m) acc T' Hclock HT') with post; [|done].
    intros a. destruct (decide (a = key)) as [->|Hne].
    + by rewrite lookup_insert_eq.
    + rewrite lookup_insert_ne by done. by apply Hother.
  - (* let through *)
    destruct pre as [|p pre].
    + simpl in Hlog. injection Hlog as Hip Ht _. subst ip t.
      cbn [stamps]. rewrite app_nil_r. apply sublist_length in Hkey. lia.
    + rewrite <- app_comm_cons in Hlog. injection Hlog as Hp Hlog. subst p.
      set (acc' := λ a, if decide (key = a) then acc key ++ [T'] else acc a).
      assert (acc ip ++ stamps ip ((key, T') :: pre) = acc' ip ++ stamps ip pre)
        as ->.
      { subst acc'. simpl. destruct (decide (key = ip)) as [<-|Hne]; [|done].
        by rewrite <- app_assoc. }
      apply (IH (<[key := kept ++ [T']]> m) acc' T' Hclock HT') with post;
        [|done].
      intros a. subst acc'. simpl. destruct (decide (key = a)) as [<-|Hne].
      * rewrite lookup_insert_eq. simpl. unfold recent. rewrite filter_app.
        apply sublist_app; [exact Hkey|apply sublist_filter].
      * rewrite lookup_insert_ne by done. by apply Hother.
Qed.

(** X24. The guarantee of the limiter. When time does not run backwards, a
    request is only let through if fewer than [limit] earlier requests of
    the same address were let through less than a window (15 minutes)
    before it: no address gets more than [limit] requests through within
    a window. *)
Theorem rateLimit_window (limit : Z) (message : string) (rs : list Request)
    (pre post : list (string * Z)) (ip : string) (t : Z) :
  clock_advances rs →
  passed limit message rs ∅ = pre ++ (ip, t) :: post →
  Z.of_nat (length (recent t (stamps ip pre))) < limit.
Proof.
  intros Hclock Hlog. destruct rs as [|r rs]; [by destruct pre|].
  apply (passed_window limit message (r :: rs) ∅ (λ _, []) (req_clock r 0)
           Hclock) with post; [| |done].
  - destruct Hclock as (Hmono & Hlater & _). apply Forall_cons. split.
    + intros k. apply clock_monotone; [done|lia].
    + eapply Forall_impl; [exact Hlater|]. intros r' Hr' k. apply Hr'.
  - intros a. constructor.
Qed.

Lemma rateLimit_window_witness :
  Z.of_nat (length (recent 20 (stamps "10.0.0.1" [("10.0.0.1", 10)]))) < 2.
Proof.
  apply (rateLimit_window 2 "slow down"
           [mkRequest (Some "10.0.0.1") (λ _, 10);
            mkRequest (Some "10.0.0.1") (λ _, 20);
            mkRequest (Some "10.0.0.1") (λ _, 30)]
           [("10.0.0.1", 10)] [] "10.0.0.1" 20).
  - cbn [clock_advances].
    repeat match goal with
           | |- _ ∧ _ => split
           | |- Forall _ (_ :: _) => apply Forall_cons
           | |- Forall _ [] => apply Forall_nil_2
           | |- True => exact I
           | |- ∀ _, _ => intros; simpl; lia
           end.
  - reflexivity.
Defined.

(** * Properties of the routes *)

(** X25. The three answers of [POST /lights/:id/on] (and [.../off]). A path id
    that is not a number, or is below 1, is answered 400 without touching
    the service. A valid id of a missing light is answered 500 with the
    text of the error middleware: the "Light not found" of the service is
    not turned into a 404. A valid id of an existing light is answered
    200, and the light has the new status. *)
Theorem route_turnOn_responses (s : State) (id : option Z) :
  (id = None ∨ (∃ n, id = Some n ∧ n < 1) →
     route_turnOn id s = (mkResponse 400 (BError "Invalid light ID"), s) ∧
     route_turnOff id s = (mkResponse 400 (BError "Invalid light ID"), s)) ∧
  (∀ n, id = Some n → 1 ≤ n → lights s !! n = None →
     route_turnOn id s = (mkResponse 500 (BError "Something went wrong!"), s) ∧
     route_turnOff id s = (mkResponse 500 (BError "Something went wrong!"), s)) ∧
  (∀ n l, id = Some n → 1 ≤ n → lights s !! n = Some l →
     (route_turnOn id s).1
       = mkResponse 200 (BMessage ("Light " +:+ pretty n +:+ " turned on")) ∧
     lights (route_turnOn id s).2 !! n
       = Some (mkLight (light_id l) On (brightness l) (color l)) ∧
     (route_turnOff id s).1
       = mkResponse 200 (BMessage ("Light " +:+ pretty n +:+ " turned off")) ∧
     lights (route_turnOff id s).2 !! n
       = Some (mkLight (light_id l) Off (brightness l) (color l))).
Proof.
  split; [|split].
  - intros [->|(n & -> & Hn)]; [done|].
    unfold route_turnOn, route_turnOff, validateId.
    by replace (n <? 1) with true by lia.
  - intros n -> Hn Hl. unfold route_turnOn, route_turnOff, validateId.
    replace (n <? 1) with false by lia. unfold asyncHandler.
    pose proof (switch_missing s On n Hl) as Hon.
    pose proof (switch_missing s Off n Hl) as Hoff.
    simpl in Hon, Hoff. by rewrite Hon, Hoff.
  - intros n l -> Hn Hl. unfold route_turnOn, route_turnOff, validateId.
    replace (n <? 1) with false by lia. unfold asyncHandler.
    pose proof (switch_found s On n l Hl) as Hon.
    pose proof (switch_found s Off n l Hl) as Hoff.
    simpl in Hon, Hoff. rewrite Hon, Hoff. simpl.
    by rewrite !lookup_alter_eq, Hl.
Qed.

Lemma route_turnOn_responses_witness :
  route_turnOn (Some 0) init = (mkResponse 400 (BError "Invalid light ID"), init) ∧
  route_turnOn (Some 7) init
    = (mkResponse 500 (BError "Something went wrong!"), init) ∧
  (route_turnOn (Some 1) init).1 = mkResponse 200 (BMessage "Light 1 turned on").
Proof.
  split; [|split].
  - destruct (route_turnOn_responses init (Some 0)) as [H _].
    apply H. right. exists 0. split; [done|lia].
  - destruct (route_turnOn_responses init (Some 7)) as (_ & H & _).
    apply (H 7); [done|lia|done].
  - destruct (route_turnOn_responses init (Some 1)) as (_ & _ & H).
    apply (H 1 (newLight 1)); [done|lia|done].
Defined.

Section RouteTexts.
Variable numberToString : Z → string.

(** X26. [GET /lights/:id] with a valid id answers 200 with the light when it
    exists and 404 when it does not, with a text that names the id as the
    template literal prints it; it never changes the state. *)
Theorem route_getLight_responses (s : State) (n : Z) :
  1 ≤ n →
  (route_getLight numberToString (Some n) s).2 = s ∧
  (∀ l, lights s !! n = Some l →
        (route_getLight numberToString (Some n) s).1 = mkResponse 200 (BLight l)) ∧
  (lights s !! n = None →
     (route_getLight numberToString (Some n) s).1
     = mkResponse 404
         (BError ("Light with ID " +:+ numberToString n +:+ " not found"))).
Proof.
  intros Hn. unfold route_getLight, validateId.
  replace (n <? 1) with false by lia.
  unfold asyncHandler, getLight, bind, get, ret. simpl.
  split; [done|]. split.
  - by intros l ->.
  - by intros ->.
Qed.

End RouteTexts.

Lemma route_getLight_responses_witness :
  (route_getLight pretty (Some 4) init).2 = init ∧
  (∀ l, lights init !! 4 = Some l →
        (route_getLight pretty (Some 4) init).1 = mkResponse 200 (BLight l)) ∧
  (lights init !! 4 = None →
     (route_getLight pretty (Some 4) init).1
     = mkResponse 404 (BError ("Light with ID " +:+ pretty 4 +:+ " not found"))).
Proof. apply (route_getLight_responses pretty init 4). lia. Defined.


(** The remove-light route on a store whose group 1 lists lights 1 and 2,
    called for group 5, which does not exist: light 2 is deleted and
    group 1 lists light 1 only. *)
Example route_removeLight_example :
  groups (route_removeLight pretty (Some 5) (Some 2)
            (group_added "G" [1; 2] init)).2 !! 1
  = Some (mkGroup 1 "G" [1]).
Proof. reflexivity. Qed.

(** * Further witnesses *)

Lemma reachable_group_id_unused_witness :
  groups (group_added "G" [1] init) !! groupIdCounter (group_added "G" [1] init)
  = None.
Proof.
  apply (reachable_group_id_unused (λ _, None)).
  by exists [CreateGroup "G" [1]].
Defined.

Lemma run_members_distinct_witness :
  members_distinct
    (run (λ _, None)
         [CreateGroup "G" [1; 2]; AddLight; AddLightToGroup 1 3;
          AddLightToGroup 1 3; DeleteLightFromGroup 1] init).2.
Proof.
  apply (run_members_distinct (λ _, None)).
  repeat (apply Forall_cons; split;
          [cbn [creates_only]; try exact I|]); [|apply Forall_nil_2].
  apply NoDup_cons. split; [|apply NoDup_singleton].
  intros H. by apply list_elem_of_singleton in H.
Defined.

Lemma rateLimit_per_address_witness :
  (rateLimit 1 "slow down" (Some "10.0.0.1") (λ _, 5)
             (<["10.0.0.2" := [1]]> ∅)).1
  = (rateLimit 1 "slow down" (Some "10.0.0.1") (λ _, 5) ∅).1 ∧
  (rateLimit 1 "slow down" (Some "10.0.0.1") (λ _, 5)
             (<["10.0.0.2" := [1]]> ∅)).2 !! "10.0.0.2"
  = Some [1].
Proof.
  destruct (rateLimit_per_address 1 "slow down" (Some "10.0.0.1") (λ _, 5)
              (<["10.0.0.2" := [1]]> ∅) ∅) as [H1 H2].
  split.
  - apply H2. reflexivity.
  - rewrite (H1 "10.0.0.2"); [reflexivity|]. simpl. congruence.
Defined.
